(** * fmp_soma_vadis: probability mass function of a sum of independent
      discrete random variables

    Shallow embedding of [src/fmp_soma_vadis.py] and the properties its
    specification states about the four combiners

      - [somaVADs_biv]   (pairwise_sum)
      - [somaVADs_conv]  (grid_convolution_sum)
      - [somaVADs_FFT]   (spectral_sum)
      - [somaVADs_hib]   (hybrid_sum)

    Numbers are exact rationals ([Qc], canonical fractions, so that Leibniz
    equality is numerical equality).  A two-column [ndarray] is the list of
    its rows.  Python lists are objects of a heap, because the two recursive
    reducers pop from and append to the list object they are handed. *)

From Stdlib Require Import QArith Qcanon Qround ZArith List Lia.
From stdpp Require Import gmap list sorting.

Local Open Scope Qc_scope.

(** ** Exact numbers *)

Definition Qceqb (x y : Qc) : bool := Qeq_bool x y.
Definition Qcleb (x y : Qc) : bool := Qle_bool x y.

(** The fraction [n/d]. *)
Definition frac (n : Z) (d : positive) : Qc := Q2Qc (n # d).
(** The integer [n] as a number. *)
Definition num (n : Z) : Qc := Q2Qc (inject_Z n).

(** ** Exceptions and outcomes *)

Inductive value_error : Set :=
| RepCount        (* line 219: the repetition count must be at least 1 *)
| ShapeMismatch   (* numpy: stacked arrays must have the same length *)
| EmptyOperand    (* numpy: an operand of convolve is empty *)
| ArangeSize      (* numpy: arange cannot compute a length, the step is 0 *)
| FFTPoints.      (* numpy: invalid number of FFT data points *)

Inductive exn : Set :=
| IndexError                       (* index out of bounds, pop from empty list *)
| ValueError (why : value_error)
| TypeError                        (* list object of the wrong element kind *)
| NameError                        (* a reference to no object *)
| RecursionError                   (* the recursion budget is used up *)
| OutsideModel.                    (* reciprocal of a spectrum, see [cyc_pow] *)

Inductive outcome (A : Type) : Type :=
| Return (a : A)
| Raise (e : exn).
Arguments Return {A} a.
Arguments Raise {A} e.

Definition obind {A B} (o : outcome A) (k : A -> outcome B) : outcome B :=
  match o with
  | Return a => k a
  | Raise e => Raise e
  end.

(** ** numpy on exact numbers *)

Module np.

(** A 2-D array with two columns: the list of its rows. *)
Abbreviation ndarray := (list (Qc * Qc)).

(** [X[:,0]] and [X[:,1]]. *)
Definition col0 (X : ndarray) : list Qc := map fst X.
Definition col1 (X : ndarray) : list Qc := map snd X.

(** [v[0]] and [v[-1]] of a 1-D array. *)
Definition first (v : list Qc) : outcome Qc :=
  match v with
  | [] => Raise IndexError
  | x :: _ => Return x
  end.
Definition final (v : list Qc) : outcome Qc :=
  match last v with
  | None => Raise IndexError
  | Some x => Return x
  end.

(** [np.arange(start, stop, step)]: [ceil((stop - start) / step)] values
    [start + i * step]. *)
Definition arange_len (start stop step : Qc) : nat :=
  Z.to_nat (Qceiling ((stop - start) / step)%Qc).
Definition arange (start stop step : Qc) : outcome (list Qc) :=
  if Qceqb step 0 then Raise (ValueError ArangeSize)
  else Return (map (fun i : nat => start + num (Z.of_nat i) * step)
                   (seq 0 (arange_len start stop step))).

(** [np.add.outer(a, b)] and [np.multiply.outer(a, b)]; [.ravel()] reads
    the matrix row by row. *)
Definition outer (f : Qc -> Qc -> Qc) (a b : list Qc) : list (list Qc) :=
  map (fun x => map (f x) b) a.
Definition ravel (m : list (list Qc)) : list Qc := concat m.

(** Sum of two vectors, the shorter one extended with zeros. *)
Fixpoint vadd (x y : list Qc) : list Qc :=
  match x, y with
  | [], _ => y
  | _, [] => x
  | a :: x', b :: y' => (a + b) :: vadd x' y'
  end.

(** Full discrete convolution: entry [k] is the sum of [a_i * v_(k-i)]. *)
Fixpoint convolve_full (a v : list Qc) : list Qc :=
  match a with
  | [] => []
  | x :: a' => vadd (map (Qcmult x) v) (0 :: convolve_full a' v)
  end.

(** [np.convolve(a, v, mode="full")]; numpy rejects an empty operand. *)
Definition convolve (a v : list Qc) : outcome (list Qc) :=
  match a, v with
  | [], _ | _, [] => Raise (ValueError EmptyOperand)
  | _, _ => Return (convolve_full a v)
  end.

(** [np.vstack([s, p]).T]: the two rows must have one length. *)
Definition vstack_T (s p : list Qc) : outcome ndarray :=
  if Nat.eqb (length s) (length p) then Return (zip s p)
  else Raise (ValueError ShapeMismatch).

(** [np.array([s, p]).T] for two sequences of one length. *)
Definition array_T (s p : list Qc) : ndarray := zip s p.

(** [v.argsort()]: the indices that sort [v] ascending (insertion sort on
    the pairs (key, index), which keeps equal keys in their order). *)
Fixpoint insert_key (x : Qc * nat) (l : list (Qc * nat)) : list (Qc * nat) :=
  match l with
  | [] => [x]
  | y :: l' => if Qcleb (fst x) (fst y) then x :: l else y :: insert_key x l'
  end.
Definition sort_keys (l : list (Qc * nat)) : list (Qc * nat) :=
  foldr insert_key [] l.
Definition argsort (v : list Qc) : list nat :=
  map snd (sort_keys (zip v (seq 0 (length v)))).

(** [X[idx]]: the rows of [X] at the indices [idx]. *)
Definition take_rows (X : ndarray) (idx : list nat) : ndarray :=
  map (fun i => nth i X (0, 0)) idx.

(** *** The transform pair

    Under exact arithmetic the discrete Fourier transform turns cyclic
    convolution of length [n] into the element-wise product.  A spectrum
    [fft(p, n)] is therefore represented by the length-[n] sequence it is
    the transform of; the product of spectra is the cyclic convolution of
    these sequences, [ifft] gives the sequence back and [.real] changes
    nothing, the sequences being real. *)

(** [fft(p, n=n)] crops [p] to [n] entries or pads it with zeros. *)
Definition resize (n : nat) (p : list Qc) : list Qc :=
  take n p ++ replicate (n - length p) 0.

Definition fft (p : list Qc) (n : nat) : outcome (list Qc) :=
  match n with
  | O => Raise (ValueError FFTPoints)
  | _ => Return (resize n p)
  end.

(** Cyclic convolution of two sequences of length [n]: the entries of the
    full convolution beyond [n] wrap around. *)
Definition cyc_conv (n : nat) (a b : list Qc) : list Qc :=
  let c := convolve_full a b in
  resize n (vadd (take n c) (drop n c)).

(** The spectrum of all ones is the transform of the unit impulse. *)
Definition impulse (n : nat) : list Qc := resize n [1].

Fixpoint cyc_pow_nat (n : nat) (a : list Qc) (r : nat) : list Qc :=
  match r with
  | O => impulse n
  | S r' => cyc_conv n a (cyc_pow_nat n a r')
  end.

(** [spectrum ** r].  A negative power is the reciprocal of a spectrum,
    which is no cyclic convolution: the embedding stops there. *)
Definition cyc_pow (n : nat) (a : list Qc) (r : Z) : outcome (list Qc) :=
  if (r <? 0)%Z then Raise OutsideModel
  else Return (cyc_pow_nat n a (Z.to_nat r)).

(** [np.prod(TFs, axis=0)]: the product of the spectra; of no spectrum at
    all it is the scalar 1.0 ([None]). *)
Definition prod (n : nat) (TFs : list (list Qc)) : option (list Qc) :=
  match TFs with
  | [] => None
  | t :: ts => Some (fold_left (cyc_conv n) ts t)
  end.

(** [np.fft.ifft(s).real]; a scalar has no axis to transform along. *)
Definition ifft_real (s : option (list Qc)) : outcome (list Qc) :=
  match s with
  | None => Raise IndexError
  | Some x => Return x
  end.

(** [np.dot(reps, v)] for a list of integers and a list of numbers. *)
Fixpoint dot (reps : list Z) (v : list Qc) : Qc :=
  match reps, v with
  | r :: reps', x :: v' => num r * x + dot reps' v'
  | _, _ => 0
  end.

End np.

Export np.

(** ** Python list objects *)

Module py.

Definition loc : Type := positive.

(** The lists the combiners are handed: a worklist of distributions, or a
    list of (distribution, repetition) tuples. *)
Inductive pylist : Type :=
| VadList (xs : list ndarray)
| PairList (xs : list (ndarray * Z)).

(** A computation reads and writes the heap and returns or raises. *)
Definition M (A : Type) : Type :=
  gmap loc pylist -> outcome A * gmap loc pylist.

#[global] Instance M_ret : MRet M := fun A a h => (Return a, h).
#[global] Instance M_bind : MBind M := fun A B k m h =>
  match m h with
  | (Return a, h') => k a h'
  | (Raise e, h') => (Raise e, h')
  end.

Definition raise {A} (e : exn) : M A := fun h => (Raise e, h).

(** A pure numpy step inside a computation. *)
Definition lift {A} (o : outcome A) : M A := fun h => (o, h).

(** [len(l)] *)
Definition len (l : loc) : M nat := fun h =>
  match h !! l with
  | Some (VadList xs) => (Return (length xs), h)
  | Some (PairList xs) => (Return (length xs), h)
  | None => (Raise NameError, h)
  end.

(** [l[i]] on a worklist. *)
Definition getitem (l : loc) (i : nat) : M ndarray := fun h =>
  match h !! l with
  | Some (VadList xs) =>
      match xs !! i with
      | Some X => (Return X, h)
      | None => (Raise IndexError, h)
      end
  | Some (PairList _) => (Raise TypeError, h)
  | None => (Raise NameError, h)
  end.

(** [l[i]] on a list of tuples. *)
Definition getpair (l : loc) (i : nat) : M (ndarray * Z) := fun h =>
  match h !! l with
  | Some (PairList xs) =>
      match xs !! i with
      | Some X => (Return X, h)
      | None => (Raise IndexError, h)
      end
  | Some (VadList _) => (Raise TypeError, h)
  | None => (Raise NameError, h)
  end.

(** [[nested for nested in l]]: the tuples of the list, read in order. *)
Definition pairs (l : loc) : M (list (ndarray * Z)) := fun h =>
  match h !! l with
  | Some (PairList xs) => (Return xs, h)
  | Some (VadList _) => (Raise TypeError, h)
  | None => (Raise NameError, h)
  end.

(** [l.pop()]: removes and returns the last element. *)
Definition pop (l : loc) : M ndarray := fun h =>
  match h !! l with
  | Some (VadList xs) =>
      match last xs with
      | Some X => (Return X, <[l := VadList (removelast xs)]> h)
      | None => (Raise IndexError, h)
      end
  | Some (PairList _) => (Raise TypeError, h)
  | None => (Raise NameError, h)
  end.

(** [l.append(X)] *)
Definition append (l : loc) (X : ndarray) : M unit := fun h =>
  match h !! l with
  | Some (VadList xs) => (Return tt, <[l := VadList (xs ++ [X])]> h)
  | Some (PairList _) => (Raise TypeError, h)
  | None => (Raise NameError, h)
  end.

(** [[]]: a new, empty list object. *)
Definition new_list : M loc := fun h =>
  let l := fresh (dom h) in (Return l, <[l := VadList []]> h).

End py.

Export py.

#[global] Instance outcome_ret : MRet outcome := @Return.
#[global] Instance outcome_bind : MBind outcome := fun A B k o => obind o k.

(** ** The dictionary of the pairwise combiner

    Keys in insertion order, as CPython keeps them; a key is found by
    numerical equality. *)

Module dict.

Definition t : Type := list (Qc * Qc).

(** [d[k]] when [k in d]. *)
Fixpoint get (k : Qc) (d : t) : option Qc :=
  match d with
  | [] => None
  | (k', v) :: d' => if Qceqb k' k then Some v else get k d'
  end.

(** [d[k] = v]: replaces the value of a present key, appends a new one. *)
Fixpoint set (k v : Qc) (d : t) : t :=
  match d with
  | [] => [(k, v)]
  | (k', v') :: d' =>
      if Qceqb k' k then (k', v) :: d' else (k', v') :: set k v d'
  end.

Definition keys (d : t) : list Qc := map fst d.
Definition values (d : t) : list Qc := map snd d.

End dict.

(** ** The four combiners *)

(** Lines 46-60: the distribution of [X1 + X2] from the bivariate
    distribution of two independent variables. *)
Definition accumulate (P_Z : dict.t) (sp : Qc * Qc) : dict.t :=
  let (soma, prob) := sp in
  match dict.get soma P_Z with
  | Some q => dict.set soma (q + prob) P_Z
  | None => dict.set soma prob P_Z
  end.

Definition bivariate (X1 X2 : ndarray) : ndarray :=
  let somas := outer Qcplus (col0 X1) (col0 X2) in
  let F_W := outer Qcmult (col1 X1) (col1 X2) in
  let P_Z := fold_left accumulate (zip (ravel somas) (ravel F_W)) [] in
  array_T (dict.keys P_Z) (dict.values P_Z).

(** The recursion of [somaVADs_biv]; [fuel] bounds the number of nested
    calls. *)
Fixpoint somaVADs_biv_rec (fuel : nat) (VADs : loc) : M ndarray :=
  n ← len VADs;
  if Nat.eqb n 1 then
    V0 ← getitem VADs 0;
    mret (take_rows V0 (argsort (col0 V0)))
  else
    X1 ← pop VADs;
    X2 ← pop VADs;
    append VADs (bivariate X1 X2);;
    match fuel with
    | O => raise RecursionError
    | S fuel' => somaVADs_biv_rec fuel' VADs
    end.

(** [somaVADs_biv(VADs)]: a list of [n] distributions needs fewer than [n]
    nested calls. *)
Definition somaVADs_biv (VADs : loc) : M ndarray :=
  n ← len VADs;
  somaVADs_biv_rec n VADs.

(** Lines 97-108: the distribution of [X1 + X2] on the grid of step [delta]. *)
Definition conv_pair (delta : Qc) (X1 X2 : ndarray) : outcome ndarray :=
  let S_X1 := col0 X1 in
  let S_X2 := col0 X2 in
  let P_X1 := col1 X1 in
  let P_X2 := col1 X2 in
  a0 ← first S_X1;
  b0 ← first S_X2;
  a1 ← final S_X1;
  b1 ← final S_X2;
  S_Z ← arange (a0 + b0) (a1 + b1 + delta) delta;
  P_Z ← convolve P_X1 P_X2;
  vstack_T S_Z P_Z.

(** The recursion of [somaVADs_conv].  The nested call of line 112 is
    [somaVADs_conv(VADs)]: it passes no [delta], so that the callee runs
    with the default [delta=1]. *)
Fixpoint somaVADs_conv_rec (fuel : nat) (VADs : loc) (delta : Qc) : M ndarray :=
  n ← len VADs;
  if Nat.eqb n 1 then
    getitem VADs 0
  else
    X1 ← pop VADs;
    X2 ← pop VADs;
    par_Z_PZ ← lift (conv_pair delta X1 X2);
    append VADs par_Z_PZ;;
    match fuel with
    | O => raise RecursionError
    | S fuel' => somaVADs_conv_rec fuel' VADs 1
    end.

Definition somaVADs_conv (VADs : loc) (delta : Qc) : M ndarray :=
  n ← len VADs;
  somaVADs_conv_rec n VADs delta.

(** Lines 139-161 on the tuples read from the list. *)
Definition spectral (VADs : list (ndarray * Z)) (delta : Qc) : outcome ndarray :=
  let reps := map snd VADs in
  mins ← mapM (fun nested : ndarray * Z => first (col0 nested.1)) VADs;
  maxs ← mapM (fun nested : ndarray * Z => final (col0 nested.1)) VADs;
  let SZ_min := dot reps mins in
  let SZ_max := dot reps maxs in
  S_Z ← arange SZ_min (SZ_max + delta) delta;
  TFs ← mapM (fun nested : ndarray * Z =>
                sp ← fft (col1 nested.1) (length S_Z);
                cyc_pow (length S_Z) sp nested.2) VADs;
  VAD_Z ← ifft_real (prod (length S_Z) TFs);
  mret (array_T S_Z VAD_Z).

Definition somaVADs_FFT (VADs : loc) (delta : Qc) : M ndarray :=
  nested ← pairs VADs;
  lift (spectral nested delta).

(** Lines 196-219: one round of the loop of [somaVADs_hib]. *)
Definition hib_step (VADs dif_VADs : loc) (delta : Qc) (i : nat) : M unit :=
  nested ← getpair VADs i;
  let rep := nested.2 in
  let VAD := nested.1 in
  if (rep =? 1)%Z then
    append dif_VADs VAD
  else if (1 <? rep)%Z then
    a0 ← lift (first (col0 VAD));
    a1 ← lift (final (col0 VAD));
    S_Z ← lift (arange (num rep * a0) (num rep * a1 + delta) delta);
    sp ← lift (fft (col1 VAD) (length S_Z));
    sp_rep ← lift (cyc_pow (length S_Z) sp rep);
    FMP_final ← lift (ifft_real (Some sp_rep));
    append dif_VADs (array_T S_Z FMP_final)
  else
    raise (ValueError RepCount).

(** [for i in range(n): body(i)] *)
Fixpoint for_range (body : nat -> M unit) (range : list nat) : M unit :=
  match range with
  | [] => mret tt
  | i :: range' => body i;; for_range body range'
  end.

(** [somaVADs_hib(VADs, delta)].  Line 222 is [somaVADs_conv(dif_VADs)]: the
    reducer runs with its default [delta=1]. *)
Definition somaVADs_hib (VADs : loc) (delta : Qc) : M ndarray :=
  dif_VADs ← new_list;
  n ← len VADs;
  for_range (hib_step VADs dif_VADs delta) (seq 0 n);;
  somaVADs_conv dif_VADs 1.

(** * Vocabulary of the specification *)

(** The mass of a probability vector. *)
Definition vsum (v : list Qc) : Qc := foldr Qcplus 0 v.

(** The probabilities of a distribution add up to [vsum (col1 X)]. *)
Definition normalized (X : ndarray) : Prop := vsum (col1 X) = 1.

(** Order of the (key, index) pairs that [argsort] sorts. *)
Definition key_le (x y : Qc * nat) : Prop := x.1 <= y.1.

(** ** The reducers as folds over the worklist

    Both reducers pop the last two distributions and push their merge, so
    that a worklist [ys ++ [X1]] is folded from its end. *)

Fixpoint conv_fold (delta : Qc) (X1 : ndarray) (rest : list ndarray)
  : outcome ndarray * list ndarray :=
  match rest with
  | [] => (Return X1, [X1])
  | X2 :: rest' =>
      match conv_pair delta X1 X2 with
      | Return par_Z_PZ => conv_fold 1 par_Z_PZ rest'
      | Raise e => (Raise e, rev rest')
      end
  end.

(** ** Frame of a computation *)

(** [m] writes at most the object [l]: whatever the outcome, every other
    object of the heap is left as it was. *)
Definition writes_only {A} (l : loc) (m : M A) : Prop :=
  forall (h : gmap loc pylist) (k : loc), k <> l -> (m h).2 !! k = h !! k.

(** ** The two phases of the hybrid combiner *)

(** Phase 1 on one tuple (lines 196-219): the distribution appended to
    [dif_VADs], or the exception raised. *)
Definition self_sum (delta : Qc) (nested : ndarray * Z) : outcome ndarray :=
  let rep := nested.2 in
  let VAD := nested.1 in
  if (rep =? 1)%Z then Return VAD
  else if (1 <? rep)%Z then
    a0 ← first (col0 VAD);
    a1 ← final (col0 VAD);
    S_Z ← arange (num rep * a0) (num rep * a1 + delta) delta;
    sp ← fft (col1 VAD) (length S_Z);
    sp_rep ← cyc_pow (length S_Z) sp rep;
    FMP_final ← ifft_real (Some sp_rep);
    mret (array_T S_Z FMP_final)
  else Raise (ValueError RepCount).

(** Phase 1 on the tuples still to visit, [acc] being [dif_VADs] so far. *)
Fixpoint phase1 (delta : Qc) (ps : list (ndarray * Z)) (acc : list ndarray)
  : outcome unit * list ndarray :=
  match ps with
  | [] => (Return tt, acc)
  | nested :: ps' =>
      match self_sum delta nested with
      | Return X => phase1 delta ps' (acc ++ [X])
      | Raise e => (Raise e, acc)
      end
  end.

(** A distribution with at least one row whose first value is not above
    its last one. *)
Definition spans (X : ndarray) : Prop :=
  exists a0 a1, first (col0 X) = Return a0 /\ final (col0 X) = Return a1 /\ a0 <= a1.

(** ** Probability mass functions *)

(** The probability that the rows of [X] give to the value [v]. *)
Fixpoint mass (X : ndarray) (v : Qc) : Qc :=
  match X with
  | [] => 0
  | (a, p) :: X' => (if Qceqb a v then p else 0) + mass X' v
  end.

(** The probability that [X1 + X2 = v] for independent variables: the sum
    of [p * q] over the rows [(a, p)] of [X1] and [(b, q)] of [X2] with
    [a + b = v]. *)
Definition mass_sum (X1 X2 : ndarray) (v : Qc) : Qc :=
  vsum (map (fun r1 : Qc * Qc =>
               vsum (map (fun r2 : Qc * Qc =>
                            if Qceqb (r1.1 + r2.1) v then r1.2 * r2.2 else 0)
                         X2))
            X1).

(** ** The distribution of a sum of several variables *)

(** One more independent variable [X]: the probability of [v] when [mu] is
    the mass function of the sum so far. *)
Definition conv_mass (mu : Qc -> Qc) (X : ndarray) (v : Qc) : Qc :=
  vsum (map (fun r : Qc * Qc => r.2 * mu (v - r.1)) X).

(** The probability that the independent variables [xs] add up to [v]; the
    empty sum is 0. *)
Fixpoint pmf_sum (xs : list ndarray) (v : Qc) : Qc :=
  match xs with
  | [] => if Qceqb v 0 then 1 else 0
  | X :: xs' => conv_mass (pmf_sum xs') X v
  end.


(** ** Grids *)

(** The [n] values [a], [a + d], [a + 2d], ... *)
Definition grid (a d : Qc) (n : nat) : list Qc :=
  map (fun i : nat => a + num (Z.of_nat i) * d) (seq 0 n).

(** [X] has at least one row and its values are a grid of step [d]. *)
Definition on_grid (d : Qc) (X : ndarray) : Prop :=
  exists a n, col0 X = grid a d (S n).

(** Two arrays that describe one distribution: the same values and the
    same probability for every value. *)
Definition same_distribution (X Y : ndarray) : Prop :=
  (forall v, v ∈ col0 X <-> v ∈ col0 Y) /\ (forall v, mass X v = mass Y v).

(** ** Distributions used as concrete inputs *)

(** A fair die, a fair coin with faces [0] and [d], three equally likely
    values [0], [d], [2d]. *)
Definition die : ndarray :=
  map (fun k : Z => (num k, frac 1 6)) [1; 2; 3; 4; 5; 6]%Z.
Definition coin (d : Qc) : ndarray := [(0, frac 1 2); (d, frac 1 2)].
Definition tri (d : Qc) : ndarray :=
  [(0, frac 1 3); (d, frac 1 3); (d + d, frac 1 3)].

(** The rows of an array as plain fractions, to compare arrays by
    computation. *)
Definition fractions (X : ndarray) : list (Q * Q) :=
  map (fun r : Qc * Qc => (this r.1, this r.2)) X.

(** * Properties *)

(** ** Comparisons of exact numbers *)

Lemma Qceqb_eq (x y : Qc) : Qceqb x y = true <-> x = y.
Proof.
  unfold Qceqb. rewrite Qeq_bool_iff. split.
  - apply Qc_is_canon.
  - intros ->. apply Qeq_refl.
Qed.

Lemma Qceqb_neq (x y : Qc) : Qceqb x y = false <-> x <> y.
Proof.
  rewrite <- Qceqb_eq. destruct (Qceqb x y); split; congruence.
Qed.

Lemma Qcleb_le (x y : Qc) : Qcleb x y = true <-> x <= y.
Proof. unfold Qcleb, Qcle. apply Qle_bool_iff. Qed.

Lemma Qcleb_gt (x y : Qc) : Qcleb x y = false -> y <= x.
Proof.
  intros H. apply Qclt_le_weak, Qcnot_le_lt.
  rewrite <- Qcleb_le. congruence.
Qed.

(** ** Sums of vectors *)

Lemma vsum_app (u v : list Qc) : vsum (u ++ v) = vsum u + vsum v.
Proof.
  induction u as [|x u IH]; simpl.
  - ring.
  - rewrite IH. ring.
Qed.

Lemma vsum_scale (x : Qc) (v : list Qc) : vsum (map (Qcmult x) v) = x * vsum v.
Proof.
  induction v as [|y v IH]; simpl.
  - ring.
  - rewrite IH. ring.
Qed.

Lemma vsum_vadd (u v : list Qc) : vsum (vadd u v) = vsum u + vsum v.
Proof.
  revert v. induction u as [|x u IH]; intros [|y v]; simpl; try ring.
  rewrite IH. ring.
Qed.

Lemma vsum_perm (u v : list Qc) : u ≡ₚ v -> vsum u = vsum v.
Proof.
  induction 1 as [|x u v _ IH|x y u|u v w _ IH1 _ IH2]; simpl.
  - reflexivity.
  - now rewrite IH.
  - ring.
  - now rewrite IH1.
Qed.

Lemma vsum_convolve_full (a v : list Qc) :
  vsum (convolve_full a v) = vsum a * vsum v.
Proof.
  induction a as [|x a IH]; simpl.
  - ring.
  - rewrite vsum_vadd, vsum_scale. simpl. rewrite IH. ring.
Qed.

Lemma vsum_outer_mult (p q : list Qc) :
  vsum (ravel (outer Qcmult p q)) = vsum p * vsum q.
Proof.
  unfold ravel, outer. induction p as [|x p IH]; simpl.
  - ring.
  - rewrite vsum_app, vsum_scale, IH. ring.
Qed.

Lemma length_ravel_outer (f : Qc -> Qc -> Qc) (a b : list Qc) :
  length (ravel (outer f a b)) = (length a * length b)%nat.
Proof.
  unfold ravel, outer. induction a as [|x a IH]; simpl.
  - reflexivity.
  - rewrite length_app, length_map, IH. reflexivity.
Qed.

Lemma col0_array_T (s p : list Qc) :
  length s = length p -> col0 (array_T s p) = s.
Proof. intros H. apply fst_zip. lia. Qed.

Lemma col1_array_T (s p : list Qc) :
  length s = length p -> col1 (array_T s p) = p.
Proof. intros H. apply snd_zip. lia. Qed.

(** ** The dictionary *)

Lemma dict_get_None (k : Qc) (d : dict.t) :
  dict.get k d = None <-> k ∉ dict.keys d.
Proof.
  induction d as [|[k' v] d IH]; simpl.
  - split; [intros _; apply not_elem_of_nil | reflexivity].
  - rewrite not_elem_of_cons. destruct (Qceqb k' k) eqn:E.
    + apply Qceqb_eq in E. split; [discriminate | intros [H _]; congruence].
    + apply Qceqb_neq in E. rewrite IH. split; [split; [congruence | assumption] | tauto].
Qed.

Lemma dict_keys_set_absent (k v : Qc) (d : dict.t) :
  dict.get k d = None -> dict.keys (dict.set k v d) = dict.keys d ++ [k].
Proof.
  induction d as [|[k' v'] d IH]; simpl; [reflexivity|].
  destruct (Qceqb k' k); [discriminate|].
  intros H. simpl. now rewrite IH.
Qed.

Lemma dict_keys_set_present (k v q : Qc) (d : dict.t) :
  dict.get k d = Some q -> dict.keys (dict.set k v d) = dict.keys d.
Proof.
  induction d as [|[k' v'] d IH]; simpl; [discriminate|].
  destruct (Qceqb k' k); [reflexivity|].
  intros H. simpl. now rewrite IH.
Qed.

Lemma dict_values_set_absent (k v : Qc) (d : dict.t) :
  dict.get k d = None -> vsum (dict.values (dict.set k v d)) = vsum (dict.values d) + v.
Proof.
  induction d as [|[k' v'] d IH]; simpl; [intros _; ring|].
  destruct (Qceqb k' k); [discriminate|].
  intros H. simpl. rewrite IH by assumption. ring.
Qed.

Lemma dict_values_set_present (k v q : Qc) (d : dict.t) :
  dict.get k d = Some q ->
  vsum (dict.values (dict.set k v d)) = vsum (dict.values d) - q + v.
Proof.
  induction d as [|[k' v'] d IH]; simpl; [discriminate|].
  destruct (Qceqb k' k).
  - intros [= ->]. simpl. ring.
  - intros H. simpl. rewrite IH by assumption. ring.
Qed.

(** One round of the loop of lines 53-57 adds [prob] to the mass held by
    the dictionary and keeps its keys distinct. *)
Lemma accumulate_mass (P_Z : dict.t) (soma prob : Qc) :
  vsum (dict.values (accumulate P_Z (soma, prob)))
  = vsum (dict.values P_Z) + prob.
Proof.
  unfold accumulate. destruct (dict.get soma P_Z) as [q|] eqn:E.
  - rewrite (dict_values_set_present _ _ q) by assumption. ring.
  - now apply dict_values_set_absent.
Qed.

Lemma accumulate_NoDup (P_Z : dict.t) (sp : Qc * Qc) :
  NoDup (dict.keys P_Z) -> NoDup (dict.keys (accumulate P_Z sp)).
Proof.
  destruct sp as [soma prob]. unfold accumulate. intros ND.
  destruct (dict.get soma P_Z) as [q|] eqn:E.
  - now rewrite (dict_keys_set_present _ _ q).
  - rewrite dict_keys_set_absent by assumption.
    apply NoDup_app. repeat split; [assumption | | apply NoDup_singleton].
    intros x Hx ->%list_elem_of_singleton. now apply dict_get_None in E.
Qed.

Lemma length_accumulate_keys_values (P_Z : dict.t) :
  length (dict.keys P_Z) = length (dict.values P_Z).
Proof. unfold dict.keys, dict.values. now rewrite !length_map. Qed.

Lemma fold_accumulate_mass (l : list (Qc * Qc)) (P_Z : dict.t) :
  vsum (dict.values (fold_left accumulate l P_Z))
  = vsum (dict.values P_Z) + vsum (map snd l).
Proof.
  revert P_Z. induction l as [|[s p] l IH]; intros P_Z; cbn [fold_left].
  - simpl. ring.
  - rewrite IH, accumulate_mass. simpl. ring.
Qed.

Lemma fold_accumulate_NoDup (l : list (Qc * Qc)) (P_Z : dict.t) :
  NoDup (dict.keys P_Z) -> NoDup (dict.keys (fold_left accumulate l P_Z)).
Proof.
  revert P_Z. induction l as [|sp l IH]; intros P_Z ND; cbn [fold_left].
  - assumption.
  - now apply IH, accumulate_NoDup.
Qed.

(** ** One pairwise merge *)

Lemma bivariate_col0 (X1 X2 : ndarray) :
  col0 (bivariate X1 X2)
  = dict.keys (fold_left accumulate
      (zip (ravel (outer Qcplus (col0 X1) (col0 X2)))
           (ravel (outer Qcmult (col1 X1) (col1 X2)))) []).
Proof. unfold bivariate. apply col0_array_T, length_accumulate_keys_values. Qed.

Lemma bivariate_col1 (X1 X2 : ndarray) :
  col1 (bivariate X1 X2)
  = dict.values (fold_left accumulate
      (zip (ravel (outer Qcplus (col0 X1) (col0 X2)))
           (ravel (outer Qcmult (col1 X1) (col1 X2)))) []).
Proof. unfold bivariate. apply col1_array_T, length_accumulate_keys_values. Qed.

(** The values of a merged distribution are pairwise distinct. *)
Lemma bivariate_NoDup (X1 X2 : ndarray) : NoDup (col0 (bivariate X1 X2)).
Proof.
  rewrite bivariate_col0. apply fold_accumulate_NoDup, NoDup_nil_2.
Qed.

(** The mass of a merged distribution is the product of the masses. *)
Lemma bivariate_mass (X1 X2 : ndarray) :
  vsum (col1 (bivariate X1 X2)) = vsum (col1 X1) * vsum (col1 X2).
Proof.
  rewrite bivariate_col1, fold_accumulate_mass, snd_zip.
  - rewrite vsum_outer_mult. simpl. ring.
  - rewrite !length_ravel_outer. unfold col0, col1. rewrite !length_map. lia.
Qed.

(** ** Sorting the rows of an array *)

Lemma insert_key_perm (x : Qc * nat) (l : list (Qc * nat)) :
  insert_key x l ≡ₚ x :: l.
Proof.
  induction l as [|y l IH]; simpl; [reflexivity|].
  destruct (Qcleb x.1 y.1); [reflexivity|].
  rewrite IH. apply Permutation_swap.
Qed.

Lemma sort_keys_perm (l : list (Qc * nat)) : sort_keys l ≡ₚ l.
Proof.
  induction l as [|x l IH]; simpl; [reflexivity|].
  now rewrite insert_key_perm, IH.
Qed.

Lemma insert_key_sorted (x : Qc * nat) (l : list (Qc * nat)) :
  StronglySorted key_le l -> StronglySorted key_le (insert_key x l).
Proof.
  induction 1 as [|y l Hl IH Hy]; simpl.
  - repeat constructor.
  - destruct (Qcleb x.1 y.1) eqn:E.
    + apply Qcleb_le in E. constructor; [now constructor|].
      constructor; [exact E|].
      eapply Forall_impl; [exact Hy|].
      intros z Hz. unfold key_le in *. now apply Qcle_trans with y.1.
    + apply Qcleb_gt in E. constructor; [exact IH|].
      rewrite insert_key_perm. now constructor.
Qed.

Lemma sort_keys_sorted (l : list (Qc * nat)) : StronglySorted key_le (sort_keys l).
Proof.
  induction l as [|x l IH]; simpl; [constructor|].
  now apply insert_key_sorted.
Qed.

Lemma take_rows_seq (X : ndarray) : take_rows X (seq 0 (length X)) = X.
Proof.
  unfold take_rows. apply list_eq. intros i.
  change (map ?f ?l) with (f <$> l). rewrite list_lookup_fmap.
  destruct (X !! i) as [r|] eqn:E.
  - rewrite lookup_seq_lt by (now apply lookup_lt_Some in E).
    simpl. f_equal. now apply nth_lookup_Some.
  - rewrite lookup_seq_ge; [reflexivity|]. now apply lookup_ge_None.
Qed.

Lemma argsort_perm (v : list Qc) : argsort v ≡ₚ seq 0 (length v).
Proof.
  unfold argsort. rewrite sort_keys_perm.
  change (map snd ?l) with (l.*2). rewrite snd_zip; [reflexivity|].
  rewrite length_seq. lia.
Qed.

(** [X[X[:,0].argsort()]] has the rows of [X], ... *)
Lemma sorted_rows_perm (X : ndarray) : take_rows X (argsort (col0 X)) ≡ₚ X.
Proof.
  transitivity (take_rows X (seq 0 (length X))); [|now rewrite take_rows_seq].
  unfold take_rows. apply Permutation_map. rewrite argsort_perm.
  unfold col0. now rewrite length_map.
Qed.

Lemma keyed_rows (X : ndarray) :
  Forall (fun ki : Qc * nat => (nth ki.2 X (0, 0)).1 = ki.1)
         (zip (col0 X) (seq 0 (length (col0 X)))).
Proof.
  apply Forall_forall. intros [k i] Hin.
  apply list_elem_of_lookup in Hin as [j Hj].
  apply lookup_zip_Some in Hj as [Hk Hi].
  apply lookup_seq in Hi as [-> _]. simpl.
  unfold col0 in Hk. change (map fst X) with (X.*1) in Hk.
  rewrite list_lookup_fmap in Hk.
  destruct (X !! j) as [r|] eqn:E; [|discriminate].
  injection Hk as <-. now rewrite (nth_lookup_Some _ _ _ r).
Qed.

Lemma col0_sorted_rows (X : ndarray) :
  col0 (take_rows X (argsort (col0 X)))
  = map fst (sort_keys (zip (col0 X) (seq 0 (length (col0 X))))).
Proof.
  unfold col0 at 1, take_rows, argsort. rewrite !map_map.
  apply map_ext_Forall.
  eapply Permutation_Forall; [symmetry; apply sort_keys_perm|].
  apply keyed_rows.
Qed.

(** ... in ascending order of their values. *)
Lemma sorted_rows_sorted (X : ndarray) :
  StronglySorted Qcle (col0 (take_rows X (argsort (col0 X)))).
Proof.
  rewrite col0_sorted_rows.
  apply (StronglySorted_fmap fst key_le Qcle); [now intros|].
  apply sort_keys_sorted.
Qed.

(** Distinct values in ascending order are strictly increasing. *)
Lemma sorted_NoDup_strict (v : list Qc) :
  StronglySorted Qcle v -> NoDup v -> StronglySorted Qclt v.
Proof.
  induction 1 as [|x v Hv IH Hx]; intros ND; [constructor|].
  apply NoDup_cons in ND as [Hnin ND].
  constructor; [now apply IH|].
  apply Forall_forall. intros y Hy.
  rewrite Forall_forall in Hx. specialize (Hx y Hy).
  apply Qcle_lt_or_eq in Hx as [Hlt | ->]; [exact Hlt | contradiction].
Qed.

(** ** Steps of a computation *)

Section steps.

Implicit Types (h : gmap loc pylist) (l : loc) (xs : list ndarray).

Lemma bind_Return {A B} (m : M A) (k : A -> M B) h a h' :
  m h = (Return a, h') -> (m ≫= k) h = k a h'.
Proof. unfold mbind, M_bind. now intros ->. Qed.

Lemma bind_Raise {A B} (m : M A) (k : A -> M B) h e h' :
  m h = (Raise e, h') -> (m ≫= k) h = (Raise e, h').
Proof. unfold mbind, M_bind. now intros ->. Qed.

Lemma len_VadList h l xs :
  h !! l = Some (VadList xs) -> len l h = (Return (length xs), h).
Proof. unfold len. now intros ->. Qed.

Lemma len_PairList h l ps :
  h !! l = Some (PairList ps) -> len l h = (Return (length ps), h).
Proof. unfold len. now intros ->. Qed.

Lemma getitem_VadList h l xs i X :
  h !! l = Some (VadList xs) -> xs !! i = Some X ->
  getitem l i h = (Return X, h).
Proof. unfold getitem. now intros -> ->. Qed.

Lemma pop_snoc h l xs X :
  h !! l = Some (VadList (xs ++ [X])) ->
  pop l h = (Return X, <[l := VadList xs]> h).
Proof.
  unfold pop. intros ->. now rewrite last_snoc, removelast_last.
Qed.

Lemma pop_nil h l :
  h !! l = Some (VadList []) -> pop l h = (Raise IndexError, h).
Proof. unfold pop. now intros ->. Qed.

Lemma append_VadList h l xs X :
  h !! l = Some (VadList xs) ->
  append l X h = (Return tt, <[l := VadList (xs ++ [X])]> h).
Proof. unfold append. now intros ->. Qed.

Lemma somaVADs_biv_rec_eq fuel l :
  somaVADs_biv_rec fuel l =
  (n ← len l;
   if Nat.eqb n 1 then
     V0 ← getitem l 0;
     mret (take_rows V0 (argsort (col0 V0)))
   else
     X1 ← pop l;
     X2 ← pop l;
     append l (bivariate X1 X2);;
     match fuel with
     | O => raise RecursionError
     | S fuel' => somaVADs_biv_rec fuel' l
     end).
Proof. now destruct fuel. Qed.

Lemma somaVADs_conv_rec_eq fuel l delta :
  somaVADs_conv_rec fuel l delta =
  (n ← len l;
   if Nat.eqb n 1 then
     getitem l 0
   else
     X1 ← pop l;
     X2 ← pop l;
     par_Z_PZ ← lift (conv_pair delta X1 X2);
     append l par_Z_PZ;;
     match fuel with
     | O => raise RecursionError
     | S fuel' => somaVADs_conv_rec fuel' l 1
     end).
Proof. now destruct fuel. Qed.

End steps.

(** ** The reducers as folds *)

Section folds.

Implicit Types (h : gmap loc pylist) (l : loc) (ys : list ndarray).

Lemma somaVADs_biv_rec_fold l ys : forall X1 fuel h,
  h !! l = Some (VadList (ys ++ [X1])) ->
  (length ys <= fuel)%nat ->
  let Z := fold_left bivariate (rev ys) X1 in
  somaVADs_biv_rec fuel l h
  = (Return (take_rows Z (argsort (col0 Z))), <[l := VadList [Z]]> h).
Proof.
  induction ys as [|X2 ys IH] using rev_ind; intros X1 fuel h Hl Hfuel Z;
    rewrite somaVADs_biv_rec_eq;
    rewrite (bind_Return _ _ _ _ _ (len_VadList _ _ _ Hl)).
  - simpl. rewrite (bind_Return _ _ _ X1 h) by now apply (getitem_VadList _ _ [X1]).
    subst Z. simpl. now rewrite insert_id.
  - rewrite !length_app in *. simpl in *.
    replace (length ys + 1 + 1 =? 1)%nat with false by (symmetry; apply Nat.eqb_neq; lia).
    rewrite (bind_Return _ _ _ _ _ (pop_snoc _ _ _ _ Hl)).
    erewrite bind_Return by (apply pop_snoc; apply lookup_insert_eq).
    erewrite bind_Return by (apply append_VadList; apply lookup_insert_eq).
    destruct fuel as [|fuel]; [lia|].
    rewrite (IH (bivariate X1 X2) fuel) by (try apply lookup_insert_eq; lia).
    subst Z. rewrite rev_unit. simpl. now rewrite !insert_insert_eq.
Qed.

Lemma somaVADs_biv_fold l ys X1 h :
  h !! l = Some (VadList (ys ++ [X1])) ->
  let Z := fold_left bivariate (rev ys) X1 in
  somaVADs_biv l h
  = (Return (take_rows Z (argsort (col0 Z))), <[l := VadList [Z]]> h).
Proof.
  intros Hl Z. unfold somaVADs_biv.
  rewrite (bind_Return _ _ _ _ _ (len_VadList _ _ _ Hl)).
  apply somaVADs_biv_rec_fold; [assumption|].
  rewrite length_app. lia.
Qed.

Lemma somaVADs_conv_rec_fold l ys : forall X1 delta fuel h,
  h !! l = Some (VadList (ys ++ [X1])) ->
  (length ys <= fuel)%nat ->
  somaVADs_conv_rec fuel l delta h
  = ((conv_fold delta X1 (rev ys)).1,
     <[l := VadList (conv_fold delta X1 (rev ys)).2]> h).
Proof.
  induction ys as [|X2 ys IH] using rev_ind; intros X1 delta fuel h Hl Hfuel;
    rewrite somaVADs_conv_rec_eq;
    rewrite (bind_Return _ _ _ _ _ (len_VadList _ _ _ Hl)).
  - simpl. rewrite insert_id by assumption.
    now apply (getitem_VadList _ _ [X1]).
  - rewrite !length_app in *. simpl in *.
    replace (length ys + 1 + 1 =? 1)%nat with false by (symmetry; apply Nat.eqb_neq; lia).
    rewrite (bind_Return _ _ _ _ _ (pop_snoc _ _ _ _ Hl)).
    erewrite bind_Return by (apply pop_snoc; apply lookup_insert_eq).
    rewrite rev_unit. simpl.
    destruct (conv_pair delta X1 X2) as [par|e] eqn:E.
    + erewrite bind_Return by reflexivity.
      erewrite bind_Return by (apply append_VadList; apply lookup_insert_eq).
      destruct fuel as [|fuel]; [lia|].
      rewrite (IH par 1 fuel) by (try apply lookup_insert_eq; lia).
      now rewrite !insert_insert_eq.
    + erewrite bind_Raise by reflexivity.
      simpl. now rewrite rev_involutive, insert_insert_eq.
Qed.

Lemma somaVADs_conv_fold l ys X1 delta h :
  h !! l = Some (VadList (ys ++ [X1])) ->
  somaVADs_conv l delta h
  = ((conv_fold delta X1 (rev ys)).1,
     <[l := VadList (conv_fold delta X1 (rev ys)).2]> h).
Proof.
  intros Hl. unfold somaVADs_conv.
  rewrite (bind_Return _ _ _ _ _ (len_VadList _ _ _ Hl)).
  apply somaVADs_conv_rec_fold; [assumption|].
  rewrite length_app. lia.
Qed.

End folds.

(** ** Inversion of one grid merge *)

Ltac outcome_cases H :=
  unfold mbind, mret, outcome_bind, outcome_ret, obind in H;
  repeat match type of H with
         | context [match ?o with Return _ => _ | Raise _ => _ end] =>
             let E := fresh "E" in destruct o eqn:E; try discriminate H
         end.

Lemma vstack_T_Return (s p : list Qc) (X : ndarray) :
  vstack_T s p = Return X -> length s = length p /\ X = zip s p.
Proof.
  unfold vstack_T. destruct (Nat.eqb_spec (length s) (length p)); [|discriminate].
  intros [= <-]. now split.
Qed.

Lemma convolve_Return (a v c : list Qc) :
  convolve a v = Return c -> c = convolve_full a v /\ a <> [] /\ v <> [].
Proof.
  unfold convolve. destruct a, v; try discriminate.
  intros [= <-]. now repeat split.
Qed.

(** A merge that succeeds pairs an axis with the full convolution of the
    probability vectors. *)
Lemma conv_pair_Return (delta : Qc) (X1 X2 par : ndarray) :
  conv_pair delta X1 X2 = Return par ->
  exists a0 b0 a1 b1 S_Z,
    first (col0 X1) = Return a0 /\ first (col0 X2) = Return b0 /\
    final (col0 X1) = Return a1 /\ final (col0 X2) = Return b1 /\
    arange (a0 + b0) (a1 + b1 + delta) delta = Return S_Z /\
    length S_Z = length (convolve_full (col1 X1) (col1 X2)) /\
    par = zip S_Z (convolve_full (col1 X1) (col1 X2)).
Proof.
  unfold conv_pair. intros H. outcome_cases H.
  apply vstack_T_Return in H as [Hlen ->].
  apply convolve_Return in E4 as [-> _].
  eauto 12.
Qed.

Lemma conv_pair_mass (delta : Qc) (X1 X2 par : ndarray) :
  conv_pair delta X1 X2 = Return par ->
  vsum (col1 par) = vsum (col1 X1) * vsum (col1 X2).
Proof.
  intros (a0 & b0 & a1 & b1 & S_Z & _ & _ & _ & _ & _ & Hlen & ->)%conv_pair_Return.
  change (zip S_Z ?p) with (array_T S_Z p).
  rewrite (col1_array_T _ _ Hlen). apply vsum_convolve_full.
Qed.

(** ** Normalization *)

Lemma normalized_bivariate (X1 X2 : ndarray) :
  normalized X1 -> normalized X2 -> normalized (bivariate X1 X2).
Proof.
  unfold normalized. intros H1 H2. rewrite bivariate_mass, H1, H2. ring.
Qed.

Lemma normalized_fold_bivariate (rest : list ndarray) : forall X1,
  normalized X1 -> Forall normalized rest ->
  normalized (fold_left bivariate rest X1).
Proof.
  induction rest as [|X2 rest IH]; intros X1 H1 Hrest; simpl; [assumption|].
  apply Forall_cons in Hrest as [H2 Hrest].
  now apply IH; [apply normalized_bivariate|].
Qed.

Lemma normalized_sorted_rows (X : ndarray) :
  normalized X -> normalized (take_rows X (argsort (col0 X))).
Proof.
  unfold normalized. intros <-. apply vsum_perm.
  unfold col1. apply Permutation_map, sorted_rows_perm.
Qed.

Lemma normalized_conv_fold (rest : list ndarray) : forall delta X1 Z,
  normalized X1 -> Forall normalized rest ->
  (conv_fold delta X1 rest).1 = Return Z -> normalized Z.
Proof.
  induction rest as [|X2 rest IH]; intros delta X1 Z H1 Hrest; simpl.
  - now intros [= <-].
  - apply Forall_cons in Hrest as [H2 Hrest].
    destruct (conv_pair delta X1 X2) as [par|e] eqn:E; [|discriminate].
    apply IH; [|assumption].
    unfold normalized in *. rewrite (conv_pair_mass _ _ _ _ E), H1, H2. ring.
Qed.

(** A non-empty worklist ends in its last distribution. *)
Lemma worklist_snoc (xs : list ndarray) :
  xs <> [] -> exists ys X1, xs = ys ++ [X1].
Proof.
  destruct xs as [|X xs] using rev_ind; [congruence | eauto].
Qed.

(** C4. Normalization: when every distribution of a non-empty worklist has
    probabilities that add up to 1, [somaVADs_biv] returns a distribution
    whose probabilities add up to 1, and so do the probabilities of every
    distribution that [somaVADs_conv] returns. *)
Theorem normalization_preserved (h : gmap loc pylist) (l : loc) (xs : list ndarray) :
  h !! l = Some (VadList xs) ->
  xs <> [] ->
  Forall normalized xs ->
  (exists Z h', somaVADs_biv l h = (Return Z, h') /\ normalized Z) /\
  (forall delta Z h', somaVADs_conv l delta h = (Return Z, h') -> normalized Z).
Proof.
  intros Hl Hne Hnorm.
  destruct (worklist_snoc xs Hne) as (ys & X1 & ->).
  apply Forall_app in Hnorm as [Hys HX1].
  apply Forall_inv in HX1.
  assert (Hrev : Forall normalized (rev ys)) by now apply Forall_rev.
  split.
  - eexists _, _. split; [exact (somaVADs_biv_fold _ _ _ _ Hl)|].
    apply normalized_sorted_rows, normalized_fold_bivariate; assumption.
  - intros delta Z h'. rewrite (somaVADs_conv_fold _ _ _ _ _ Hl).
    intros [= HZ _]. now apply (normalized_conv_fold (rev ys) delta X1).
Qed.

Lemma normalized_die : normalized die.
Proof. apply Qc_is_canon. reflexivity. Qed.

Lemma normalization_preserved_witness :
  let h : gmap loc pylist := {[ 1%positive := VadList [die; die] ]} in
  (exists Z h', somaVADs_biv 1%positive h = (Return Z, h') /\ normalized Z) /\
  (forall delta Z h',
     somaVADs_conv 1%positive delta h = (Return Z, h') -> normalized Z).
Proof.
  intros h. apply (normalization_preserved h 1%positive [die; die]).
  - reflexivity.
  - discriminate.
  - repeat constructor; apply normalized_die.
Defined.

(** ** A single distribution *)

(** C5. Degenerate case: on a worklist that holds exactly one distribution
    [D], [somaVADs_biv] returns the rows of [D] in ascending order of their
    values, every row with its own probability, and [somaVADs_conv] returns
    [D] itself; neither call changes the heap. *)
Theorem single_distribution (h : gmap loc pylist) (l : loc) (D : ndarray) :
  h !! l = Some (VadList [D]) ->
  (exists Z, somaVADs_biv l h = (Return Z, h) /\
             Z ≡ₚ D /\ StronglySorted Qcle (col0 Z)) /\
  (forall delta, somaVADs_conv l delta h = (Return D, h)).
Proof.
  intros Hl. split.
  - exists (take_rows D (argsort (col0 D))). split; [|split].
    + rewrite (somaVADs_biv_fold l [] D h Hl). simpl. now rewrite insert_id.
    + apply sorted_rows_perm.
    + apply sorted_rows_sorted.
  - intros delta. rewrite (somaVADs_conv_fold l [] D delta h Hl). simpl.
    now rewrite insert_id.
Qed.

Lemma single_distribution_witness :
  let D : ndarray := [(num 3, frac 1 2); (num 1, frac 1 4); (num 2, frac 1 4)] in
  let h : gmap loc pylist := {[ 1%positive := VadList [D] ]} in
  (exists Z, somaVADs_biv 1%positive h = (Return Z, h) /\
             Z ≡ₚ D /\ StronglySorted Qcle (col0 Z)) /\
  (forall delta, somaVADs_conv 1%positive delta h = (Return D, h)).
Proof.
  intros D h. apply (single_distribution h 1%positive D). reflexivity.
Defined.

(** ** Consumption of the worklist *)

(** C8. Worklist consumption: after [somaVADs_biv] or [somaVADs_conv] has
    returned on a worklist of [n >= 1] distributions, the list object holds
    exactly one element and every other object of the heap is as before;
    for [n = 1] the heap is as before, so that the list still holds its
    original element. *)
Theorem worklist_consumed (h : gmap loc pylist) (l : loc) (xs : list ndarray) :
  h !! l = Some (VadList xs) ->
  xs <> [] ->
  (exists Z X, somaVADs_biv l h = (Return Z, <[l := VadList [X]]> h) /\
               (length xs = 1%nat -> <[l := VadList [X]]> h = h)) /\
  (forall delta Z h', somaVADs_conv l delta h = (Return Z, h') ->
     exists X, h' = <[l := VadList [X]]> h /\ (length xs = 1%nat -> h' = h)).
Proof.
  intros Hl Hne.
  destruct (worklist_snoc xs Hne) as (ys & X1 & ->).
  assert (Hone : length (ys ++ [X1]) = 1%nat -> ys = []).
  { rewrite length_app. simpl. destruct ys; [reflexivity | simpl; lia]. }
  split.
  - eexists _, _. split; [exact (somaVADs_biv_fold _ _ _ _ Hl)|].
    intros ->%Hone. simpl. now apply insert_id.
  - intros delta Z h'. rewrite (somaVADs_conv_fold _ _ _ _ _ Hl).
    intros [= HZ <-].
    assert (Hfin : forall rest d X, (conv_fold d X rest).1 = Return Z ->
                                    (conv_fold d X rest).2 = [Z]).
    { induction rest as [|X2 rest IH]; intros d X; simpl.
      - now intros [= ->].
      - destruct (conv_pair d X X2); [apply IH | discriminate]. }
    rewrite (Hfin _ _ _ HZ). exists Z. split; [reflexivity|].
    intros ->%Hone. simpl in HZ. injection HZ as <-. now apply insert_id.
Qed.

Lemma worklist_consumed_witness :
  let h : gmap loc pylist := {[ 1%positive := VadList [die; die] ]} in
  (exists Z X, somaVADs_biv 1%positive h
               = (Return Z, <[1%positive := VadList [X]]> h) /\
               (length [die; die] = 1%nat -> <[1%positive := VadList [X]]> h = h)) /\
  (forall delta Z h', somaVADs_conv 1%positive delta h = (Return Z, h') ->
     exists X, h' = <[1%positive := VadList [X]]> h /\
               (length [die; die] = 1%nat -> h' = h)).
Proof.
  intros h. apply (worklist_consumed h 1%positive [die; die]).
  - reflexivity.
  - discriminate.
Defined.

(** ** Values of the pairwise sum *)

Lemma fold_bivariate_NoDup (rest : list ndarray) : forall X1 X2,
  NoDup (col0 (fold_left bivariate rest (bivariate X1 X2))).
Proof.
  induction rest as [|X3 rest IH]; intros X1 X2; simpl.
  - apply bivariate_NoDup.
  - apply IH.
Qed.

(** C9. On a worklist of two or more distributions [somaVADs_biv] returns a
    distribution whose values are strictly increasing: ascending and without
    a repeated value. *)
Theorem pairwise_strictly_increasing (h : gmap loc pylist) (l : loc) (xs : list ndarray) :
  h !! l = Some (VadList xs) ->
  (2 <= length xs)%nat ->
  exists Z h', somaVADs_biv l h = (Return Z, h') /\ StronglySorted Qclt (col0 Z).
Proof.
  intros Hl Hlen.
  destruct (worklist_snoc xs) as (ys & X1 & ->); [now destruct xs|].
  destruct (worklist_snoc ys) as (zs & X2 & ->).
  { destruct ys; [simpl in Hlen; lia | discriminate]. }
  eexists _, _. split; [exact (somaVADs_biv_fold _ _ _ _ Hl)|].
  rewrite rev_unit. cbn [fold_left].
  apply sorted_NoDup_strict; [apply sorted_rows_sorted|].
  set (F := fold_left bivariate (rev zs) (bivariate X1 X2)).
  assert (P : col0 (take_rows F (argsort (col0 F))) ≡ₚ col0 F)
    by apply Permutation_map, sorted_rows_perm.
  rewrite P. apply fold_bivariate_NoDup.
Qed.

Lemma pairwise_strictly_increasing_witness :
  let h : gmap loc pylist := {[ 1%positive := VadList [die; die] ]} in
  exists Z h', somaVADs_biv 1%positive h = (Return Z, h') /\
               StronglySorted Qclt (col0 Z).
Proof.
  intros h. apply (pairwise_strictly_increasing h 1%positive [die; die]).
  - reflexivity.
  - simpl. lia.
Defined.

(** ** What a computation writes *)

Section frame.

Context {A B : Type}.
Implicit Types (l k : loc) (h : gmap loc pylist).

Lemma writes_only_ret l (a : A) : writes_only l (mret a : M A).
Proof. now intros h k _. Qed.

Lemma writes_only_raise l e : writes_only l (raise e : M A).
Proof. now intros h k _. Qed.

Lemma writes_only_lift l (o : outcome A) : writes_only l (lift o).
Proof. now intros h k _. Qed.

Lemma writes_only_bind l (m : M A) (f : A -> M B) :
  writes_only l m -> (forall a, writes_only l (f a)) -> writes_only l (m ≫= f).
Proof.
  intros Hm Hf h k Hk. specialize (Hm h k Hk).
  unfold mbind, M_bind. destruct (m h) as [[a|e] h1]; simpl in *.
  - now rewrite Hf.
  - assumption.
Qed.

End frame.

Section frame_list.

Implicit Types (l k : loc) (h : gmap loc pylist).

Lemma writes_only_len l k : writes_only l (len k).
Proof. intros h j _. unfold len. now destruct (h !! k) as [[]|]. Qed.

Lemma writes_only_getitem l k i : writes_only l (getitem k i).
Proof.
  intros h j _. unfold getitem.
  destruct (h !! k) as [[xs|]|]; try reflexivity. now destruct (xs !! i).
Qed.

Lemma writes_only_getpair l k i : writes_only l (getpair k i).
Proof.
  intros h j _. unfold getpair.
  destruct (h !! k) as [[|xs]|]; try reflexivity. now destruct (xs !! i).
Qed.

Lemma writes_only_pairs l k : writes_only l (pairs k).
Proof. intros h j _. unfold pairs. now destruct (h !! k) as [[]|]. Qed.

Lemma writes_only_pop l : writes_only l (pop l).
Proof.
  intros h j Hj. unfold pop.
  destruct (h !! l) as [[xs|]|]; try reflexivity.
  destruct (last xs); [|reflexivity]. simpl. now rewrite lookup_insert_ne.
Qed.

Lemma writes_only_append l X : writes_only l (append l X).
Proof.
  intros h j Hj. unfold append.
  destruct (h !! l) as [[xs|]|]; try reflexivity.
  simpl. now rewrite lookup_insert_ne.
Qed.

Lemma writes_only_conv_rec l fuel : forall delta,
  writes_only l (somaVADs_conv_rec fuel l delta).
Proof.
  induction fuel as [|fuel IH]; intros delta; rewrite somaVADs_conv_rec_eq;
    (apply writes_only_bind; [apply writes_only_len|]; intros n;
     destruct (Nat.eqb n 1); [apply writes_only_getitem|];
     apply writes_only_bind; [apply writes_only_pop|]; intros X1;
     apply writes_only_bind; [apply writes_only_pop|]; intros X2;
     apply writes_only_bind; [apply writes_only_lift|]; intros par;
     apply writes_only_bind; [apply writes_only_append|]; intros _).
  - apply writes_only_raise.
  - apply IH.
Qed.

Lemma writes_only_conv l delta : writes_only l (somaVADs_conv l delta).
Proof.
  apply writes_only_bind; [apply writes_only_len|].
  intros n. apply writes_only_conv_rec.
Qed.

Lemma writes_only_hib_step l k delta i : writes_only l (hib_step k l delta i).
Proof.
  apply writes_only_bind; [apply writes_only_getpair|]. intros [VAD rep]. simpl.
  destruct (rep =? 1)%Z; [apply writes_only_append|].
  destruct (1 <? rep)%Z; [|apply writes_only_raise].
  repeat (apply writes_only_bind; [apply writes_only_lift|]; intros ?).
  apply writes_only_append.
Qed.

Lemma writes_only_for_range l (body : nat -> M unit) (range : list nat) :
  (forall i, writes_only l (body i)) -> writes_only l (for_range body range).
Proof.
  intros Hbody. induction range as [|i range IH]; simpl.
  - apply writes_only_ret.
  - apply writes_only_bind; [apply Hbody | now intros _].
Qed.

(** The spectral combiner writes nothing. *)
Lemma somaVADs_FFT_heap l delta h : (somaVADs_FFT l delta h).2 = h.
Proof.
  unfold somaVADs_FFT, pairs, mbind, M_bind.
  now destruct (h !! l) as [[]|].
Qed.

(** The hybrid combiner writes only the list it has created itself. *)
Lemma somaVADs_hib_frame l delta h k :
  is_Some (h !! k) -> (somaVADs_hib l delta h).2 !! k = h !! k.
Proof.
  intros Hk. unfold somaVADs_hib.
  set (dif := fresh (dom h)).
  assert (Hne : k <> dif).
  { intros ->. apply elem_of_dom in Hk. now apply is_fresh in Hk. }
  unfold mbind at 1, M_bind at 1, new_list. fold dif.
  match goal with
  | |- (?m ?h0).2 !! k = _ =>
      assert (Hw : writes_only dif m); [|rewrite (Hw h0 k Hne)]
  end.
  - apply writes_only_bind; [apply writes_only_len|]. intros n.
    apply writes_only_bind; [|intros _; apply writes_only_conv].
    apply writes_only_for_range. intros i. apply writes_only_hib_step.
  - now apply lookup_insert_ne.
Qed.

End frame_list.

(** C10. The spectral and the hybrid combiner leave the caller's list as it
    was: after [somaVADs_FFT] the whole heap is unchanged, and after
    [somaVADs_hib] the caller's list holds the same tuples and so does every
    other object that existed before the call (the reduction of phase 2
    pops from the list that the call has created). *)
Theorem spectral_hybrid_keep_input
  (h : gmap loc pylist) (l : loc) (VADs : list (ndarray * Z)) (delta : Qc) :
  h !! l = Some (PairList VADs) ->
  (somaVADs_FFT l delta h).2 = h /\
  (somaVADs_hib l delta h).2 !! l = Some (PairList VADs) /\
  (forall k, is_Some (h !! k) -> (somaVADs_hib l delta h).2 !! k = h !! k).
Proof.
  intros Hl. split; [apply somaVADs_FFT_heap|]. split.
  - rewrite somaVADs_hib_frame; [assumption | now rewrite Hl].
  - intros k. apply somaVADs_hib_frame.
Qed.

Lemma spectral_hybrid_keep_input_witness :
  let VADs : list (ndarray * Z) := [(die, 2%Z); (coin 1, 3%Z)] in
  let h : gmap loc pylist := {[ 1%positive := PairList VADs ]} in
  (somaVADs_FFT 1%positive 1 h).2 = h /\
  (somaVADs_hib 1%positive 1 h).2 !! 1%positive = Some (PairList VADs) /\
  (forall k, is_Some (h !! k) -> (somaVADs_hib 1%positive 1 h).2 !! k = h !! k).
Proof.
  intros VADs h. apply (spectral_hybrid_keep_input h 1%positive VADs 1).
  reflexivity.
Defined.

(** ** The phases of the hybrid combiner *)

Section hybrid.

Implicit Types (l dif : loc) (h : gmap loc pylist) (ps : list (ndarray * Z)).

Lemma bind_lift {A B} (o : outcome A) (f : A -> M B) h :
  (lift o ≫= f) h = match o with
                    | Return a => f a h
                    | Raise e => (Raise e, h)
                    end.
Proof. now destruct o. Qed.

Lemma getpair_PairList h l ps i nested :
  h !! l = Some (PairList ps) -> ps !! i = Some nested ->
  getpair l i h = (Return nested, h).
Proof. unfold getpair. now intros -> ->. Qed.

(** One round of the loop appends [self_sum] of the tuple it visits. *)
Lemma hib_step_self_sum l dif delta i h ps nested acc :
  h !! l = Some (PairList ps) ->
  ps !! i = Some nested ->
  h !! dif = Some (VadList acc) ->
  hib_step l dif delta i h
  = match self_sum delta nested with
    | Return X => (Return tt, <[dif := VadList (acc ++ [X])]> h)
    | Raise e => (Raise e, h)
    end.
Proof.
  intros Hl Hi Hdif. unfold hib_step, self_sum.
  rewrite (bind_Return _ _ _ _ _ (getpair_PairList _ _ _ _ _ Hl Hi)).
  destruct nested as [VAD rep]. cbn [fst snd].
  destruct (rep =? 1)%Z; [now apply append_VadList|].
  destruct (1 <? rep)%Z; [|reflexivity].
  rewrite bind_lift.
  destruct (first (col0 VAD)) as [a0|]; cbn [mbind outcome_bind obind]; [|reflexivity].
  rewrite bind_lift.
  destruct (final (col0 VAD)) as [a1|]; cbn [mbind outcome_bind obind]; [|reflexivity].
  rewrite bind_lift.
  destruct (arange _ _ _) as [S_Z|]; cbn [mbind outcome_bind obind]; [|reflexivity].
  rewrite bind_lift.
  destruct (fft _ _) as [sp|]; cbn [mbind outcome_bind obind]; [|reflexivity].
  rewrite bind_lift.
  destruct (cyc_pow _ _ _) as [sp_rep|]; cbn [mbind outcome_bind obind]; [|reflexivity].
  rewrite bind_lift. simpl. now apply append_VadList.
Qed.

Lemma for_range_phase1 l dif delta : forall rest visited acc h,
  h !! l = Some (PairList (visited ++ rest)) ->
  h !! dif = Some (VadList acc) ->
  for_range (hib_step l dif delta) (seq (length visited) (length rest)) h
  = ((phase1 delta rest acc).1, <[dif := VadList (phase1 delta rest acc).2]> h).
Proof.
  induction rest as [|nested rest IH]; intros visited acc h Hl Hdif; simpl.
  - now rewrite insert_id.
  - assert (Hne : l <> dif) by (intros ->; congruence).
    unfold mbind, M_bind.
    rewrite (hib_step_self_sum _ _ _ _ _ _ nested acc Hl); [|apply list_lookup_middle; reflexivity|assumption].
    destruct (self_sum delta nested) as [X|e]; simpl.
    + replace (S (length visited)) with (length (visited ++ [nested]))
        by (rewrite length_app; simpl; lia).
      rewrite (IH (visited ++ [nested]) (acc ++ [X])).
      * now rewrite insert_insert_eq.
      * rewrite lookup_insert_ne by congruence. now rewrite <- app_assoc.
      * apply lookup_insert_eq.
    + now rewrite insert_id.
Qed.

Lemma somaVADs_conv_nil l delta h :
  h !! l = Some (VadList []) -> somaVADs_conv l delta h = (Raise IndexError, h).
Proof.
  intros Hl. unfold somaVADs_conv.
  rewrite (bind_Return _ _ _ _ _ (len_VadList _ _ _ Hl)). simpl.
  rewrite (bind_Return _ _ _ _ _ (len_VadList _ _ _ Hl)). simpl.
  now rewrite (bind_Raise _ _ _ _ _ (pop_nil _ _ Hl)).
Qed.

(** [somaVADs_hib] is phase 1 on a new list followed by [somaVADs_conv]
    with [delta = 1] on that list. *)
Lemma somaVADs_hib_phases l delta h ps :
  h !! l = Some (PairList ps) ->
  let dif := fresh (dom h) in
  somaVADs_hib l delta h
  = match (phase1 delta ps []).1 with
    | Return _ => somaVADs_conv dif 1 (<[dif := VadList (phase1 delta ps []).2]> h)
    | Raise e => (Raise e, <[dif := VadList (phase1 delta ps []).2]> h)
    end.
Proof.
  intros Hl dif. unfold somaVADs_hib.
  assert (Hne : l <> dif).
  { intros E. assert (Hin : l ∈ dom h) by (apply elem_of_dom; eauto).
    rewrite E in Hin. now apply is_fresh in Hin. }
  unfold mbind at 1, M_bind at 1, new_list. fold dif.
  assert (Hl' : <[dif := VadList []]> h !! l = Some (PairList ps))
    by now rewrite lookup_insert_ne.
  rewrite (bind_Return _ _ _ _ _ (len_PairList _ _ _ Hl')).
  unfold mbind at 1, M_bind at 1.
  pose proof (for_range_phase1 l dif delta ps [] [] _ Hl' (lookup_insert_eq _ _ _))
    as Hloop.
  cbn [length] in Hloop. rewrite Hloop, insert_insert_eq.
  now destruct (phase1 delta ps []).1.
Qed.

End hybrid.

(** ** The repetition check *)

Lemma num_nonneg (r : Z) : (0 <= r)%Z -> 0 <= num r.
Proof.
  intros Hr. unfold num, Qcle. simpl. rewrite !Qred_correct.
  change 0%Q with (inject_Z 0). now rewrite <- Zle_Qle.
Qed.

(** An axis that runs upwards with a positive step has at least one value. *)
Lemma arange_len_pos (start stop step : Qc) :
  0 < step -> start < stop -> (1 <= arange_len start stop step)%nat.
Proof.
  intros Hstep Hlt. unfold arange_len.
  assert (Hpos : 0 < (stop - start) / step).
  { unfold Qcdiv. apply Qcmult_pos_pos; [|now apply Qcinv_pos].
    exact (proj1 (Qclt_minus_iff start stop) Hlt). }
  assert (Hz : (0 < Qceiling ((stop - start) / step)%Qc)%Z).
  { rewrite Zlt_Qlt. eapply Qlt_le_trans; [exact Hpos | apply Qle_ceiling]. }
  lia.
Qed.

Lemma arange_Return (start stop step : Qc) :
  0 < step ->
  exists S_Z, arange start stop step = Return S_Z /\
              length S_Z = arange_len start stop step.
Proof.
  intros Hstep. unfold arange.
  destruct (Qceqb step 0) eqn:E.
  - apply Qceqb_eq in E. subst step. now apply Qclt_not_eq in Hstep.
  - eexists. split; [reflexivity|]. now rewrite length_map, length_seq.
Qed.

(** Phase 1 accepts every repetition count from 1 on ... *)
Lemma self_sum_Return (delta : Qc) (VAD : ndarray) (rep : Z) :
  0 < delta -> spans VAD -> (1 <= rep)%Z ->
  exists X, self_sum delta (VAD, rep) = Return X.
Proof.
  intros Hdelta (a0 & a1 & H0 & H1 & Hle) Hrep. unfold self_sum. cbn [fst snd].
  destruct (Z.eqb_spec rep 1); [eauto|].
  destruct (Z.ltb_spec 1 rep); [|lia].
  rewrite H0, H1. cbn [mbind outcome_bind obind].
  destruct (arange_Return (num rep * a0) (num rep * a1 + delta) delta Hdelta)
    as (S_Z & -> & Hlen).
  cbn [mbind outcome_bind obind].
  assert (Hpos : (1 <= length S_Z)%nat).
  { rewrite Hlen. apply arange_len_pos; [assumption|].
    apply Qcle_lt_trans with (num rep * a1).
    - apply Qcmult_le_mono_nonneg_l; [apply num_nonneg; lia | assumption].
    - rewrite <- (Qcplus_0_r (num rep * a1)) at 1.
      now apply Qcplus_lt_mono_l. }
  unfold fft. destruct (length S_Z) as [|len]; [lia|].
  cbn [mbind outcome_bind obind]. unfold cyc_pow.
  destruct (Z.ltb_spec rep 0); [lia|]. simpl. eauto.
Qed.

(** ... and rejects every count below 1. *)
Lemma self_sum_RepCount (delta : Qc) (VAD : ndarray) (rep : Z) :
  (rep < 1)%Z -> self_sum delta (VAD, rep) = Raise (ValueError RepCount).
Proof.
  intros Hrep. unfold self_sum. cbn [fst snd].
  destruct (Z.eqb_spec rep 1); [lia|].
  destruct (Z.ltb_spec 1 rep); [lia | reflexivity].
Qed.

Lemma first_Raise (v : list Qc) (e : exn) : first v = Raise e -> e = IndexError.
Proof. unfold first. destruct v; congruence. Qed.

Lemma final_Raise (v : list Qc) (e : exn) : final v = Raise e -> e = IndexError.
Proof. unfold final. destruct (last v); congruence. Qed.

(** No numpy step of phase 1 raises the error of line 219. *)
Lemma self_sum_RepCount_inv (delta : Qc) (VAD : ndarray) (rep : Z) :
  self_sum delta (VAD, rep) = Raise (ValueError RepCount) -> (rep < 1)%Z.
Proof.
  unfold self_sum. cbn [fst snd].
  destruct (Z.eqb_spec rep 1); [discriminate|].
  destruct (Z.ltb_spec 1 rep); [|lia].
  intros Hraise. exfalso. revert Hraise.
  destruct (first (col0 VAD)) eqn:E0; cbn [mbind outcome_bind obind];
    [|apply first_Raise in E0 as ->; discriminate].
  destruct (final (col0 VAD)) eqn:E1; cbn [mbind outcome_bind obind];
    [|apply final_Raise in E1 as ->; discriminate].
  unfold arange. destruct (Qceqb delta 0); cbn [mbind outcome_bind obind]; [discriminate|].
  unfold fft. destruct (length _); cbn [mbind outcome_bind obind]; [discriminate|].
  unfold cyc_pow. destruct (rep <? 0)%Z; cbn [mbind outcome_bind obind]; discriminate.
Qed.

Section repetition.

Variable delta : Qc.
Hypothesis delta_pos : 0 < delta.

Lemma phase1_RepCount (ps : list (ndarray * Z)) : forall acc,
  Forall (fun nested => spans nested.1) ps ->
  Exists (fun nested => (nested.2 < 1)%Z) ps ->
  (phase1 delta ps acc).1 = Raise (ValueError RepCount).
Proof.
  induction ps as [|[VAD rep] ps IH]; intros acc Hwf Hex.
  - now apply Exists_nil in Hex.
  - apply Forall_cons in Hwf as [Hspan Hwf]. simpl in *.
    destruct (Z.lt_ge_cases rep 1) as [Hlt|Hge].
    + now rewrite self_sum_RepCount.
    + destruct (self_sum_Return delta VAD rep delta_pos Hspan Hge) as [X ->].
      apply IH; [assumption|].
      apply Exists_cons in Hex as [Hlt|Hex]; [simpl in Hlt; lia | assumption].
Qed.

Lemma phase1_RepCount_inv (ps : list (ndarray * Z)) : forall acc,
  (phase1 delta ps acc).1 = Raise (ValueError RepCount) ->
  Exists (fun nested => (nested.2 < 1)%Z) ps.
Proof.
  induction ps as [|[VAD rep] ps IH]; intros acc; simpl; [discriminate|].
  destruct (self_sum delta (VAD, rep)) as [X|e] eqn:E.
  - intros H. apply Exists_cons_tl. now apply (IH (acc ++ [X])).
  - simpl. intros [= ->]. apply Exists_cons_hd.
    now apply (self_sum_RepCount_inv delta VAD rep).
Qed.

End repetition.

(** The grid reducer never raises the error of line 219. *)
Lemma conv_pair_not_RepCount (delta : Qc) (X1 X2 : ndarray) :
  conv_pair delta X1 X2 <> Raise (ValueError RepCount).
Proof.
  unfold conv_pair.
  destruct (first (col0 X1)) eqn:E0; cbn [mbind outcome_bind obind];
    [|apply first_Raise in E0 as ->; discriminate].
  destruct (first (col0 X2)) eqn:E1; cbn [mbind outcome_bind obind];
    [|apply first_Raise in E1 as ->; discriminate].
  destruct (final (col0 X1)) eqn:E2; cbn [mbind outcome_bind obind];
    [|apply final_Raise in E2 as ->; discriminate].
  destruct (final (col0 X2)) eqn:E3; cbn [mbind outcome_bind obind];
    [|apply final_Raise in E3 as ->; discriminate].
  unfold arange. destruct (Qceqb delta 0); cbn [mbind outcome_bind obind]; [discriminate|].
  unfold convolve.
  destruct (col1 X1), (col1 X2); cbn [mbind outcome_bind obind]; try discriminate.
  unfold vstack_T. now destruct (Nat.eqb _ _).
Qed.

Lemma conv_fold_not_RepCount (rest : list ndarray) : forall delta X1,
  (conv_fold delta X1 rest).1 <> Raise (ValueError RepCount).
Proof.
  induction rest as [|X2 rest IH]; intros delta X1; simpl; [discriminate|].
  destruct (conv_pair delta X1 X2) as [par|e] eqn:E; [apply IH|].
  simpl. intros [= ->]. now apply (conv_pair_not_RepCount delta X1 X2).
Qed.

Lemma somaVADs_conv_not_RepCount (l : loc) (delta : Qc) (h : gmap loc pylist) (xs : list ndarray) :
  h !! l = Some (VadList xs) ->
  (somaVADs_conv l delta h).1 <> Raise (ValueError RepCount).
Proof.
  intros Hl. destruct xs as [|X xs _] using rev_ind.
  - now rewrite (somaVADs_conv_nil _ _ _ Hl).
  - rewrite (somaVADs_conv_fold _ _ _ _ _ Hl). apply conv_fold_not_RepCount.
Qed.

(** C6, as the code has it.  When [delta] is positive and every
    distribution has at least one row and a first value not above its last
    one, [somaVADs_hib] raises the error of line 219 exactly when some
    repetition count is below 1; and whenever [somaVADs_hib] raises, it
    yields no distribution and the caller's list holds the tuples it held
    before the call. *)
Theorem hybrid_repetition_error
  (h : gmap loc pylist) (l : loc) (VADs : list (ndarray * Z)) (delta : Qc) :
  h !! l = Some (PairList VADs) ->
  0 < delta ->
  Forall (fun nested => spans nested.1) VADs ->
  ((somaVADs_hib l delta h).1 = Raise (ValueError RepCount)
   <-> Exists (fun nested => (nested.2 < 1)%Z) VADs) /\
  (forall e, (somaVADs_hib l delta h).1 = Raise e ->
             (somaVADs_hib l delta h).2 !! l = Some (PairList VADs)).
Proof.
  intros Hl Hdelta Hwf. split.
  - rewrite (somaVADs_hib_phases _ _ _ _ Hl). split.
    + destruct (phase1 delta VADs []).1 as [u|e] eqn:E.
      * intros H. exfalso. revert H.
        eapply somaVADs_conv_not_RepCount. apply lookup_insert_eq.
      * simpl. intros [= ->]. now apply (phase1_RepCount_inv delta VADs []).
    + intros Hex. now rewrite (phase1_RepCount delta Hdelta VADs [] Hwf Hex).
  - intros e _. rewrite somaVADs_hib_frame; [assumption | now rewrite Hl].
Qed.

Lemma spans_die : spans die.
Proof. exists (num 1), (num 6). repeat split. discriminate. Qed.

Lemma spans_coin : spans (coin 1).
Proof. exists 0, 1. repeat split. discriminate. Qed.

Lemma hybrid_repetition_error_witness :
  let VADs : list (ndarray * Z) := [(die, 3%Z); (coin 1, 2%Z); (die, 0%Z)] in
  let h : gmap loc pylist := {[ 1%positive := PairList VADs ]} in
  ((somaVADs_hib 1%positive 1 h).1 = Raise (ValueError RepCount)
   <-> Exists (fun nested => (nested.2 < 1)%Z) VADs) /\
  (forall e, (somaVADs_hib 1%positive 1 h).1 = Raise e ->
             (somaVADs_hib 1%positive 1 h).2 !! 1%positive = Some (PairList VADs)).
Proof.
  intros VADs h. apply (hybrid_repetition_error h 1%positive VADs 1).
  - reflexivity.
  - reflexivity.
  - repeat constructor; simpl; first [apply spans_die | apply spans_coin].
Defined.

(** C6, as the claim words it, fails in both directions.  A distribution
    without rows that is to be repeated twice makes [somaVADs_hib] raise
    [IndexError] at line 206, before the loop reaches the tuple whose
    repetition count is 0.  A distribution listed in descending order that
    is to be repeated twice gets an empty axis, for which [np.fft.fft]
    raises a [ValueError] of its own, although no repetition count is
    below 1. *)
Lemma hybrid_repetition_error_counterexample :
  let raises_ValueError (VADs : list (ndarray * Z)) : Prop :=
    exists why, (somaVADs_hib 1%positive 1 {[ 1%positive := PairList VADs ]}).1
                = Raise (ValueError why) in
  let below_1 (VADs : list (ndarray * Z)) : Prop :=
    Exists (fun nested => (nested.2 < 1)%Z) VADs in
  ~ (raises_ValueError [([], 2%Z); (die, 0%Z)]
     <-> below_1 [([], 2%Z); (die, 0%Z)]) /\
  ~ (raises_ValueError [([(1, frac 1 2); (0, frac 1 2)], 2%Z)]
     <-> below_1 [([(1, frac 1 2); (0, frac 1 2)], 2%Z)]).
Proof.
  intros raises_ValueError below_1. split.
  - intros [_ Hif]. destruct Hif as [why Hraise].
    + apply Exists_cons_tl, Exists_cons_hd. simpl. lia.
    + vm_compute in Hraise. discriminate Hraise.
  - intros [Honlyif _]. assert (Hex : below_1 [([(1, frac 1 2); (0, frac 1 2)], 2%Z)]).
    { apply Honlyif. exists FFTPoints. vm_compute. reflexivity. }
    apply Exists_cons in Hex as [Hlt|Hex]; [simpl in Hlt; lia|].
    now apply Exists_nil in Hex.
Qed.

(** ** The step of the grid in nested calls *)

(** Equality of two arrays of concrete numbers, fraction by fraction. *)
Ltac same_numbers :=
  vm_compute; repeat first [apply Qc_is_canon; reflexivity | f_equal].

(** C2 at three coins with faces 0 and 2, [delta = 2].  The merge of the
    first call has the axis 0, 2, 4 and the convolved probabilities; the
    nested call of line 112 then runs with [delta = 1], builds the axis
    0, 1, ..., 6 for four probabilities, and [np.vstack] raises: no
    distribution of the sum is returned. *)
Theorem grid_recursion_loses_delta :
  let X : ndarray := coin (num 2) in
  let h : gmap loc pylist := {[ 1%positive := VadList [X; X; X] ]} in
  conv_pair (num 2) X X
  = Return [(0, frac 1 4); (num 2, frac 1 2); (num 4, frac 1 4)] /\
  conv_pair 1 [(0, frac 1 4); (num 2, frac 1 2); (num 4, frac 1 4)] X
  = Raise (ValueError ShapeMismatch) /\
  (somaVADs_conv 1%positive (num 2) h).1 = Raise (ValueError ShapeMismatch).
Proof.
  intros X h. split; [|split].
  - same_numbers.
  - vm_compute. reflexivity.
  - vm_compute. reflexivity.
Qed.

(** C3 at the same input: [somaVADs_biv] returns the distribution of the
    sum of the three coins, [somaVADs_conv] called with their spacing
    raises. *)
Theorem pairwise_and_grid_differ :
  let X : ndarray := coin (num 2) in
  let h : gmap loc pylist := {[ 1%positive := VadList [X; X; X] ]} in
  (somaVADs_biv 1%positive h).1
  = Return [(0, frac 1 8); (num 2, frac 3 8); (num 4, frac 3 8); (num 6, frac 1 8)] /\
  (somaVADs_conv 1%positive (num 2) h).1 = Raise (ValueError ShapeMismatch).
Proof.
  intros X h. split.
  - same_numbers.
  - vm_compute. reflexivity.
Qed.

(** C1 at two coins, each counted once.  With faces 0 and 2 and
    [delta = 2], [somaVADs_FFT] returns the sum on the axis 0, 2, 4 and
    [somaVADs_hib] raises, line 222 calling the reducer without [delta].
    With faces 0 and 3/4 and [delta = 3/4], [somaVADs_hib] returns, on the
    axis 0, 1, 2 where [somaVADs_FFT] has 0, 3/4, 3/2. *)
Theorem hybrid_loses_delta :
  let h (d : Qc) : gmap loc pylist :=
    {[ 1%positive := PairList [(coin d, 1%Z); (coin d, 1%Z)] ]} in
  (somaVADs_FFT 1%positive (num 2) (h (num 2))).1
  = Return [(0, frac 1 4); (num 2, frac 1 2); (num 4, frac 1 4)] /\
  (somaVADs_hib 1%positive (num 2) (h (num 2))).1
  = Raise (ValueError ShapeMismatch) /\
  (somaVADs_FFT 1%positive (frac 3 4) (h (frac 3 4))).1
  = Return [(0, frac 1 4); (frac 3 4, frac 1 2); (frac 3 2, frac 1 4)] /\
  (somaVADs_hib 1%positive (frac 3 4) (h (frac 3 4))).1
  = Return [(0, frac 1 4); (1, frac 1 2); (num 2, frac 1 4)].
Proof.
  intros h. split; [|split; [|split]].
  - same_numbers.
  - vm_compute. reflexivity.
  - same_numbers.
  - same_numbers.
Qed.

(** C7 at four distributions of spacing 3/4, [delta = 3/4]: with the
    three-valued distribution first in the list [somaVADs_conv] returns,
    with it last in the list [somaVADs_conv] raises; the nested calls run
    with [delta = 1] and the lengths of their axes depend on which
    distributions are merged first. *)
Theorem grid_depends_on_order :
  let d : Qc := frac 3 4 in
  let xs : list ndarray := [tri d; coin d; coin d; coin d] in
  let ys : list ndarray := [coin d; coin d; coin d; tri d] in
  xs ≡ₚ ys /\
  (somaVADs_conv 1%positive d {[ 1%positive := VadList xs ]}).1
  = Return [(0, frac 1 24); (1, frac 1 6); (num 2, frac 7 24);
            (num 3, frac 7 24); (num 4, frac 1 6); (num 5, frac 1 24)] /\
  (somaVADs_conv 1%positive d {[ 1%positive := VadList ys ]}).1
  = Raise (ValueError ShapeMismatch).
Proof.
  intros d xs ys. split; [|split].
  - exact (Permutation_cons_append [coin d; coin d; coin d] (tri d)).
  - same_numbers.
  - vm_compute. reflexivity.
Qed.

(** * Further properties of the reducers *)

(** ** The empty worklist *)

Lemma somaVADs_biv_nil (l : loc) (h : gmap loc pylist) :
  h !! l = Some (VadList []) -> somaVADs_biv l h = (Raise IndexError, h).
Proof.
  intros Hl. unfold somaVADs_biv.
  rewrite (bind_Return _ _ _ _ _ (len_VadList _ _ _ Hl)). simpl.
  rewrite (bind_Return _ _ _ _ _ (len_VadList _ _ _ Hl)). simpl.
  now rewrite (bind_Raise _ _ _ _ _ (pop_nil _ _ Hl)).
Qed.

(** X1. On an empty worklist both reducers take the branch of lines 43 and
    94, whose first [pop] raises [IndexError]; the heap is left as it was. *)
Theorem empty_worklist_raises (h : gmap loc pylist) (l : loc) (delta : Qc) :
  h !! l = Some (VadList []) ->
  somaVADs_biv l h = (Raise IndexError, h) /\
  somaVADs_conv l delta h = (Raise IndexError, h).
Proof.
  intros Hl. split; [now apply somaVADs_biv_nil | now apply somaVADs_conv_nil].
Qed.

Lemma empty_worklist_raises_witness :
  let h : gmap loc pylist := {[ 1%positive := VadList [] ]} in
  somaVADs_biv 1%positive h = (Raise IndexError, h) /\
  somaVADs_conv 1%positive (num 2) h = (Raise IndexError, h).
Proof.
  intros h. apply (empty_worklist_raises h 1%positive (num 2)). reflexivity.
Defined.

(** ** The pairwise reducer never fails *)

(** X2. On every non-empty worklist, whatever its distributions (also
    without rows, with repeated or unordered values), [somaVADs_biv]
    returns a distribution, and its values are in ascending order. *)
Theorem pairwise_returns_sorted (h : gmap loc pylist) (l : loc) (xs : list ndarray) :
  h !! l = Some (VadList xs) ->
  xs <> [] ->
  exists Z h', somaVADs_biv l h = (Return Z, h') /\
               StronglySorted Qcle (col0 Z).
Proof.
  intros Hl Hne. destruct (worklist_snoc xs Hne) as (ys & X1 & ->).
  eexists _, _. split; [exact (somaVADs_biv_fold _ _ _ _ Hl)|].
  apply sorted_rows_sorted.
Qed.

Lemma pairwise_returns_sorted_witness :
  let xs : list ndarray := [[]; [(num 2, 1); (num 2, 0); (1, 0)]; die] in
  let h : gmap loc pylist := {[ 1%positive := VadList xs ]} in
  exists Z h', somaVADs_biv 1%positive h = (Return Z, h') /\
               StronglySorted Qcle (col0 Z).
Proof.
  intros xs h. apply (pairwise_returns_sorted h 1%positive xs).
  - reflexivity.
  - discriminate.
Defined.

(** ** A failed grid reduction consumes its operands *)

Lemma conv_fold_Raise_suffix (rest : list ndarray) : forall delta X1 e,
  (conv_fold delta X1 rest).1 = Raise e ->
  exists k, (conv_fold delta X1 rest).2 = rev (drop (S k) rest) /\
            (k < length rest)%nat.
Proof.
  induction rest as [|X2 rest IH]; intros delta X1 e; simpl; [discriminate|].
  destruct (conv_pair delta X1 X2) as [par|e'].
  - intros (k & -> & Hk)%IH. exists (S k). split; [reflexivity | lia].
  - intros _. exists 0%nat. simpl. split; [now rewrite drop_0 | lia].
Qed.

(** X3. When [somaVADs_conv] raises on a worklist of [n >= 1]
    distributions, nothing is put back: the caller's list is left with the
    first [m] of its distributions for some [m <= n - 2], the distributions
    popped so far and their merge being lost. *)
Theorem grid_failure_keeps_prefix
  (h h' : gmap loc pylist) (l : loc) (xs : list ndarray) (delta : Qc) (e : exn) :
  h !! l = Some (VadList xs) ->
  xs <> [] ->
  somaVADs_conv l delta h = (Raise e, h') ->
  exists m, h' = <[l := VadList (take m xs)]> h /\ (m + 2 <= length xs)%nat.
Proof.
  intros Hl Hne. destruct (worklist_snoc xs Hne) as (ys & X1 & ->).
  rewrite (somaVADs_conv_fold _ _ _ _ _ Hl). intros [= He <-].
  destruct (conv_fold_Raise_suffix _ _ _ _ He) as (k & -> & Hk).
  rewrite length_rev in Hk.
  exists (length ys - S k)%nat. split.
  - f_equal. f_equal. rewrite skipn_rev, rev_involutive.
    rewrite take_app_le by lia. reflexivity.
  - rewrite length_app. simpl. lia.
Qed.

Lemma grid_failure_keeps_prefix_witness :
  let X : ndarray := coin (num 2) in
  let h : gmap loc pylist := {[ 1%positive := VadList [die; X; X; X] ]} in
  exists m, <[1%positive := VadList [die]]> h
            = <[1%positive := VadList (take m [die; X; X; X])]> h /\
            (m + 2 <= length [die; X; X; X])%nat.
Proof.
  intros X h.
  apply (grid_failure_keeps_prefix h _ 1%positive [die; X; X; X] (num 2)
           (ValueError ShapeMismatch)).
  - reflexivity.
  - discriminate.
  - rewrite (somaVADs_conv_fold 1%positive [die; X; X] X (num 2) h eq_refl).
    f_equal.
Defined.

(** ** Size of the grid sum *)

Lemma length_vadd (x y : list Qc) :
  length (vadd x y) = Nat.max (length x) (length y).
Proof.
  revert y. induction x as [|a x IH]; intros [|b y]; simpl; try reflexivity.
  now rewrite IH.
Qed.

Lemma length_convolve_full (a v : list Qc) :
  a <> [] -> v <> [] ->
  length (convolve_full a v) = (length a + length v - 1)%nat.
Proof.
  intros Ha Hv. induction a as [|x a IH]; [congruence|]. clear Ha.
  destruct a as [|y a].
  - simpl. rewrite length_vadd, length_map.
    destruct v; [congruence | simpl; lia].
  - change (convolve_full (x :: y :: a) v)
      with (vadd (map (Qcmult x) v) (0 :: convolve_full (y :: a) v)).
    rewrite length_vadd, length_map. cbn [length].
    rewrite IH by discriminate. cbn [length]. lia.
Qed.

Lemma first_Return_nonempty (X : ndarray) (a : Qc) :
  first (col0 X) = Return a -> X <> [].
Proof. now destruct X. Qed.

Lemma conv_pair_length (delta : Qc) (X1 X2 par : ndarray) :
  conv_pair delta X1 X2 = Return par ->
  (length par + 1 = length X1 + length X2)%nat.
Proof.
  intros (a0 & b0 & a1 & b1 & S_Z & H0 & H1 & _ & _ & _ & Hlen & ->)%conv_pair_Return.
  apply first_Return_nonempty in H0, H1.
  rewrite length_zip, Hlen, Nat.min_id, length_convolve_full.
  - unfold col1. rewrite !length_map.
    destruct X1; [congruence|]. simpl. lia.
  - unfold col1. now destruct X1.
  - unfold col1. now destruct X2.
Qed.

Lemma conv_fold_length (rest : list ndarray) : forall delta X1 Z,
  (conv_fold delta X1 rest).1 = Return Z ->
  (length Z + length rest = length X1 + length (concat rest))%nat.
Proof.
  induction rest as [|X2 rest IH]; intros delta X1 Z; simpl.
  - intros [= ->]. lia.
  - destruct (conv_pair delta X1 X2) as [par|e] eqn:E; [|discriminate].
    intros HZ%IH. apply conv_pair_length in E. rewrite length_app. lia.
Qed.

Lemma length_concat_rev (xs : list ndarray) :
  length (concat (rev xs)) = length (concat xs).
Proof.
  induction xs as [|X xs IH]; simpl; [reflexivity|].
  rewrite concat_app, !length_app, IH. simpl. rewrite app_nil_r. lia.
Qed.

(** X4. A distribution that [somaVADs_conv] returns for [n] distributions
    with [r] rows in total has [r - (n - 1)] rows: every merge of lines
    103-108 yields one row less than its two operands have together. *)
Theorem grid_sum_rows
  (h h' : gmap loc pylist) (l : loc) (xs : list ndarray) (delta : Qc) (Z : ndarray) :
  h !! l = Some (VadList xs) ->
  somaVADs_conv l delta h = (Return Z, h') ->
  (length Z + length xs = length (concat xs) + 1)%nat.
Proof.
  intros Hl. destruct xs as [|X1 ys _] using rev_ind.
  - now rewrite (somaVADs_conv_nil _ _ _ Hl).
  - rewrite (somaVADs_conv_fold _ _ _ _ _ Hl). intros [= HZ _].
    apply conv_fold_length in HZ.
    rewrite length_rev, length_concat_rev in HZ.
    rewrite concat_app, !length_app. simpl. rewrite app_nil_r. lia.
Qed.

Lemma grid_sum_rows_witness :
  let h : gmap loc pylist := {[ 1%positive := VadList [die; coin 1] ]} in
  let Z : ndarray := zip (map num [1; 2; 3; 4; 5; 6; 7]%Z)
                         (map (frac 1) [12; 6; 6; 6; 6; 6; 12]%positive) in
  (length Z + length [die; coin 1] = length (concat [die; coin 1]) + 1)%nat.
Proof.
  intros h Z.
  apply (grid_sum_rows h (<[1%positive := VadList [Z]]> h) 1%positive
           [die; coin 1] 1 Z).
  - reflexivity.
  - rewrite (somaVADs_conv_fold 1%positive [die] (coin 1) 1 h eq_refl).
    assert (E : conv_pair 1 (coin 1) die = Return Z) by same_numbers.
    change (rev [die]) with [die]. cbn [conv_fold]. now rewrite E.
Defined.

(** ** The hybrid combiner on repetition counts 1 *)

Lemma phase1_units (delta : Qc) (ps : list (ndarray * Z)) : forall acc,
  Forall (fun nested => nested.2 = 1%Z) ps ->
  phase1 delta ps acc = (Return tt, acc ++ map fst ps).
Proof.
  induction ps as [|[VAD rep] ps IH]; intros acc Hunit; simpl.
  - now rewrite app_nil_r.
  - apply Forall_cons in Hunit as [Hrep Hunit]. simpl in Hrep. subst rep.
    unfold self_sum. simpl. rewrite IH by assumption.
    now rewrite <- app_assoc.
Qed.

(** The outcome of the grid reducer depends on the worklist only. *)
Lemma somaVADs_conv_outcome (l1 l2 : loc) (h1 h2 : gmap loc pylist)
      (xs : list ndarray) (delta : Qc) :
  h1 !! l1 = Some (VadList xs) -> h2 !! l2 = Some (VadList xs) ->
  (somaVADs_conv l1 delta h1).1 = (somaVADs_conv l2 delta h2).1.
Proof.
  intros H1 H2. destruct xs as [|X1 ys _] using rev_ind.
  - now rewrite (somaVADs_conv_nil _ _ _ H1), (somaVADs_conv_nil _ _ _ H2).
  - now rewrite (somaVADs_conv_fold _ _ _ _ _ H1), (somaVADs_conv_fold _ _ _ _ _ H2).
Qed.

(** X5. When every repetition count is 1, [somaVADs_hib] yields, for every
    [delta] it is called with, what [somaVADs_conv] yields with [delta = 1]
    on the list of the distributions: phase 1 passes them through and line
    222 hands them to the reducer without [delta]. *)
Theorem hybrid_unit_repetitions
  (h h0 : gmap loc pylist) (l l0 : loc) (VADs : list (ndarray * Z)) (delta : Qc) :
  h !! l = Some (PairList VADs) ->
  h0 !! l0 = Some (VadList (map fst VADs)) ->
  Forall (fun nested => nested.2 = 1%Z) VADs ->
  (somaVADs_hib l delta h).1 = (somaVADs_conv l0 1 h0).1.
Proof.
  intros Hl Hl0 Hunit.
  rewrite (somaVADs_hib_phases _ _ _ _ Hl), (phase1_units delta VADs [] Hunit).
  cbn [fst snd app].
  apply (somaVADs_conv_outcome _ _ _ _ (map fst VADs)); [|assumption].
  apply lookup_insert_eq.
Qed.

Lemma hybrid_unit_repetitions_witness :
  let VADs : list (ndarray * Z) := [(die, 1%Z); (coin (num 2), 1%Z)] in
  let h : gmap loc pylist := {[ 1%positive := PairList VADs ]} in
  let h0 : gmap loc pylist := {[ 5%positive := VadList (map fst VADs) ]} in
  (somaVADs_hib 1%positive (num 2) h).1 = (somaVADs_conv 5%positive 1 h0).1.
Proof.
  intros VADs h h0.
  apply (hybrid_unit_repetitions h h0 1%positive 5%positive VADs (num 2)).
  - reflexivity.
  - reflexivity.
  - repeat constructor.
Defined.

(** ** One pairwise merge is the distribution of the sum *)

Lemma mass_app (X Y : ndarray) (v : Qc) : mass (X ++ Y) v = mass X v + mass Y v.
Proof.
  induction X as [|[a p] X IH]; simpl; [ring|]. rewrite IH. ring.
Qed.

Lemma mass_set_present (s q x v : Qc) (d : dict.t) :
  dict.get s d = Some q ->
  mass (dict.set s (q + x) d) v = mass d v + (if Qceqb s v then x else 0).
Proof.
  induction d as [|[k' v'] d IH]; simpl; [discriminate|].
  destruct (Qceqb k' s) eqn:E.
  - apply Qceqb_eq in E. subst k'. intros [= ->]. simpl.
    destruct (Qceqb s v); ring.
  - intros H. simpl. rewrite IH by assumption. ring.
Qed.

Lemma mass_set_absent (s x v : Qc) (d : dict.t) :
  dict.get s d = None ->
  mass (dict.set s x d) v = mass d v + (if Qceqb s v then x else 0).
Proof.
  induction d as [|[k' v'] d IH]; simpl; [intros _; ring|].
  destruct (Qceqb k' s); [discriminate|].
  intros H. simpl. rewrite IH by assumption. ring.
Qed.

Lemma mass_accumulate (P_Z : dict.t) (soma prob v : Qc) :
  mass (accumulate P_Z (soma, prob)) v
  = mass P_Z v + (if Qceqb soma v then prob else 0).
Proof.
  unfold accumulate. destruct (dict.get soma P_Z) as [q|] eqn:E.
  - now apply mass_set_present.
  - now apply mass_set_absent.
Qed.

Lemma mass_fold_accumulate (l : list (Qc * Qc)) (v : Qc) : forall P_Z,
  mass (fold_left accumulate l P_Z) v = mass P_Z v + mass l v.
Proof.
  induction l as [|[s p] l IH]; intros P_Z; cbn [fold_left].
  - simpl. ring.
  - rewrite IH, mass_accumulate. simpl. ring.
Qed.

(** The array built at line 60 is the dictionary itself. *)
Lemma bivariate_dict (X1 X2 : ndarray) :
  bivariate X1 X2
  = fold_left accumulate
      (zip (ravel (outer Qcplus (col0 X1) (col0 X2)))
           (ravel (outer Qcmult (col1 X1) (col1 X2)))) [].
Proof. unfold bivariate, array_T, dict.keys, dict.values. apply zip_fst_snd. Qed.

Lemma mass_outer_row (a p v : Qc) (X2 : ndarray) :
  mass (zip (map (Qcplus a) (col0 X2)) (map (Qcmult p) (col1 X2))) v
  = vsum (map (fun r2 : Qc * Qc => if Qceqb (a + r2.1) v then p * r2.2 else 0) X2).
Proof.
  induction X2 as [|[b q] X2 IH]; simpl; [reflexivity|].
  now rewrite IH.
Qed.

Lemma mass_outer (X1 X2 : ndarray) (v : Qc) :
  mass (zip (ravel (outer Qcplus (col0 X1) (col0 X2)))
            (ravel (outer Qcmult (col1 X1) (col1 X2)))) v
  = mass_sum X1 X2 v.
Proof.
  unfold mass_sum, ravel, outer. induction X1 as [|[a p] X1 IH]; simpl; [reflexivity|].
  rewrite zip_with_app by (unfold col0, col1; now rewrite !length_map).
  rewrite mass_app, mass_outer_row. f_equal. exact IH.
Qed.

Lemma bivariate_mass_sum (X1 X2 : ndarray) (v : Qc) :
  mass (bivariate X1 X2) v = mass_sum X1 X2 v.
Proof.
  rewrite bivariate_dict, mass_fold_accumulate, mass_outer. simpl. ring.
Qed.

(** X6. The distribution that one pairwise merge (lines 46-60) builds
    gives every value [v] the probability that [X1 + X2 = v]: the sum of
    the products [p * q] over all rows [(a, p)] of [X1] and [(b, q)] of
    [X2] with [a + b = v]. *)
Theorem pairwise_merge_mass (X1 X2 : ndarray) (v : Qc) :
  mass (bivariate X1 X2) v = mass_sum X1 X2 v.
Proof. apply bivariate_mass_sum. Qed.

(** ** The rows of one pairwise merge *)

Lemma dict_get_Some_key (k q : Qc) (d : dict.t) :
  dict.get k d = Some q -> k ∈ dict.keys d.
Proof.
  intros H. destruct (decide (k ∈ dict.keys d)) as [|Hnot]; [assumption|].
  apply dict_get_None in Hnot. congruence.
Qed.

Lemma keys_accumulate (P_Z : dict.t) (soma prob v : Qc) :
  v ∈ dict.keys (accumulate P_Z (soma, prob)) <-> v ∈ dict.keys P_Z \/ v = soma.
Proof.
  unfold accumulate. destruct (dict.get soma P_Z) as [q|] eqn:E.
  - rewrite (dict_keys_set_present _ _ q) by assumption.
    apply dict_get_Some_key in E. split; [tauto|]. now intros [H| ->].
  - rewrite dict_keys_set_absent by assumption.
    now rewrite elem_of_app, list_elem_of_singleton.
Qed.

Lemma keys_fold_accumulate (l : list (Qc * Qc)) (v : Qc) : forall P_Z,
  v ∈ dict.keys (fold_left accumulate l P_Z)
  <-> v ∈ dict.keys P_Z \/ v ∈ map fst l.
Proof.
  induction l as [|[s p] l IH]; intros P_Z; cbn [fold_left map fst].
  - rewrite elem_of_nil. tauto.
  - rewrite IH, keys_accumulate, elem_of_cons. tauto.
Qed.

Lemma elem_of_ravel_outer (f : Qc -> Qc -> Qc) (A B : list Qc) (v : Qc) :
  v ∈ ravel (outer f A B) <-> exists a b, a ∈ A /\ b ∈ B /\ v = f a b.
Proof.
  unfold ravel, outer. induction A as [|a A IH]; simpl.
  - rewrite elem_of_nil. split; [tauto|]. intros (a & b & Ha & _). now apply elem_of_nil in Ha.
  - rewrite elem_of_app, IH. change (map (f a) B) with (f a <$> B).
    rewrite list_elem_of_fmap. split.
    + intros [(b & -> & Hb) | (a' & b & Ha & Hb & ->)].
      * exists a, b. repeat split; [apply list_elem_of_here | assumption].
      * exists a', b. repeat split; [now apply list_elem_of_further | assumption].
    + intros (a' & b & Ha & Hb & ->). apply elem_of_cons in Ha as [-> | Ha].
      * left. eauto.
      * right. eauto.
Qed.

(** The values of a merge are the sums of one value of each operand. *)
Lemma bivariate_values (X1 X2 : ndarray) (v : Qc) :
  v ∈ col0 (bivariate X1 X2)
  <-> exists a b, a ∈ col0 X1 /\ b ∈ col0 X2 /\ v = a + b.
Proof.
  rewrite bivariate_col0, keys_fold_accumulate.
  change (map fst ?l) with (l.*1). rewrite fst_zip.
  - rewrite elem_of_ravel_outer. unfold dict.keys. simpl.
    rewrite elem_of_nil. tauto.
  - rewrite !length_ravel_outer. unfold col0, col1. rewrite !length_map. lia.
Qed.

Lemma mass_NoDup_row (Z : ndarray) (v p : Qc) :
  NoDup (col0 Z) -> (v, p) ∈ Z -> mass Z v = p.
Proof.
  induction Z as [|[a q] Z IH]; simpl; intros ND Hin.
  - now apply elem_of_nil in Hin.
  - apply NoDup_cons in ND as [Hnot ND].
    apply elem_of_cons in Hin as [[= <- <-] | Hin].
    + assert (Hrest : forall Y, v ∉ col0 Y -> mass Y v = 0).
      { induction Y as [|[b r] Y IHY]; simpl; [reflexivity|].
        intros [Hne Hnin]%not_elem_of_cons.
        assert (E : Qceqb b v = false) by (apply Qceqb_neq; congruence).
        rewrite E, IHY by assumption. ring. }
      assert (E : Qceqb v v = true) by now apply Qceqb_eq.
      rewrite E, Hrest by assumption. ring.
    + assert (E : Qceqb a v = false).
      { apply Qceqb_neq. intros ->. apply Hnot.
        unfold col0. change (map fst Z) with (Z.*1).
        apply list_elem_of_fmap. now exists (v, p). }
      rewrite E, IH by assumption. ring.
Qed.

(** X7. The rows of one pairwise merge: [(v, p)] is a row of the merged
    distribution exactly when [v] is the sum of a value of [X1] and a value
    of [X2] and [p] is the probability that [X1 + X2 = v]. *)
Theorem pairwise_merge_rows (X1 X2 : ndarray) (v p : Qc) :
  (v, p) ∈ bivariate X1 X2
  <-> (exists a b, a ∈ col0 X1 /\ b ∈ col0 X2 /\ v = a + b) /\
      p = mass_sum X1 X2 v.
Proof.
  split.
  - intros Hin. split.
    + apply bivariate_values. unfold col0. change (map fst ?l) with (l.*1).
      apply list_elem_of_fmap. now exists (v, p).
    + rewrite <- (mass_NoDup_row _ v p (bivariate_NoDup X1 X2) Hin).
      apply bivariate_mass_sum.
  - intros [Hv ->]. apply bivariate_values in Hv.
    unfold col0 in Hv. change (map fst ?l) with (l.*1) in Hv.
    apply list_elem_of_fmap in Hv as ([v' p'] & -> & Hin). simpl.
    rewrite <- bivariate_mass_sum.
    now rewrite (mass_NoDup_row _ v' p' (bivariate_NoDup X1 X2) Hin).
Qed.

(** ** A merge on a grid *)

Lemma num_0 : num 0 = 0.
Proof. reflexivity. Qed.

Lemma num_add (x y : Z) : num (x + y) = num x + num y.
Proof.
  apply Qc_is_canon. unfold num, Qcplus, Q2Qc. cbn [this].
  rewrite !Qred_correct, inject_Z_plus. apply Qeq_refl.
Qed.

Lemma num_1 : num 1 = 1.
Proof. reflexivity. Qed.

Lemma Qceiling_num (k : Z) : Qceiling (num k) = k.
Proof.
  unfold num. simpl. rewrite (Qceiling_comp _ _ (Qred_correct _)).
  apply Qceiling_Z.
Qed.

Lemma length_grid (a d : Qc) (n : nat) : length (grid a d n) = n.
Proof. unfold grid. now rewrite length_map, length_seq. Qed.

Lemma first_grid (a d : Qc) (n : nat) : first (grid a d (S n)) = Return a.
Proof.
  unfold grid. cbn [seq map first]. change (Z.of_nat 0) with 0%Z.
  rewrite num_0. f_equal. ring.
Qed.

Lemma final_grid (a d : Qc) (n : nat) :
  final (grid a d (S n)) = Return (a + num (Z.of_nat n) * d).
Proof.
  unfold final, grid. rewrite seq_S, map_app. cbn [map Nat.add].
  now rewrite last_snoc.
Qed.

Lemma arange_grid (start stop step : Qc) :
  0 < step ->
  arange start stop step = Return (grid start step (arange_len start stop step)).
Proof.
  intros Hstep. unfold arange.
  destruct (Qceqb step 0) eqn:E; [|reflexivity].
  apply Qceqb_eq in E. subst step. now apply Qclt_not_eq in Hstep.
Qed.

(** The axis of line 103 for two grids of [n + 1] and [m + 1] values. *)
Lemma arange_len_grids (a b d : Qc) (n m : nat) :
  0 < d ->
  arange_len (a + b)
             (a + num (Z.of_nat n) * d + (b + num (Z.of_nat m) * d) + d) d
  = S (n + m).
Proof.
  intros Hd. unfold arange_len.
  assert (Hne : d <> 0) by (intros ->; now apply Qclt_not_eq in Hd).
  replace ((a + num (Z.of_nat n) * d + (b + num (Z.of_nat m) * d) + d - (a + b)) / d)
    with (num (Z.of_nat (S (n + m)))).
  - rewrite Qceiling_num. apply Nat2Z.id.
  - rewrite Nat2Z.inj_succ, Nat2Z.inj_add, <- Z.add_1_r, !num_add, num_1.
    field. exact Hne.
Qed.

Lemma col1_nonempty (X : ndarray) (a d : Qc) (n : nat) :
  col0 X = grid a d (S n) -> length (col1 X) = S n.
Proof.
  intros H. apply (f_equal length) in H. rewrite length_grid in H.
  unfold col0, col1 in *. now rewrite length_map in *.
Qed.

Lemma convolve_nonempty (a v : list Qc) :
  a <> [] -> v <> [] -> convolve a v = Return (convolve_full a v).
Proof. unfold convolve. destruct a, v; congruence. Qed.

Lemma nonempty_length (v : list Qc) (n : nat) : length v = S n -> v <> [].
Proof. now destruct v. Qed.

Lemma conv_pair_grid (delta a b : Qc) (n m : nat) (X1 X2 : ndarray) :
  0 < delta ->
  col0 X1 = grid a delta (S n) ->
  col0 X2 = grid b delta (S m) ->
  conv_pair delta X1 X2
  = Return (zip (grid (a + b) delta (S (n + m)))
                (convolve_full (col1 X1) (col1 X2))).
Proof.
  intros Hdelta H1 H2.
  pose proof (col1_nonempty _ _ _ _ H1) as L1.
  pose proof (col1_nonempty _ _ _ _ H2) as L2.
  unfold conv_pair. rewrite H1, H2, !first_grid, !final_grid.
  cbn [mbind outcome_bind obind].
  rewrite (arange_grid _ _ _ Hdelta), (arange_len_grids _ _ _ _ _ Hdelta).
  cbn [mbind outcome_bind obind].
  rewrite convolve_nonempty by (eapply nonempty_length; eassumption).
  cbn [mbind outcome_bind obind]. unfold vstack_T.
  rewrite length_grid, length_convolve_full
    by (eapply nonempty_length; eassumption).
  rewrite L1, L2.
  replace (S n + S m - 1)%nat with (S (n + m)) by lia.
  now rewrite Nat.eqb_refl.
Qed.



(** ** Grid reductions that go through *)


Lemma Qc_0_lt_1 : 0 < 1.
Proof. reflexivity. Qed.




(** ** The pairwise sum is the distribution of the sum *)

Lemma vsum_ext {A} (f g : A -> Qc) (l : list A) :
  (forall x, f x = g x) -> vsum (map f l) = vsum (map g l).
Proof. intros H. f_equal. apply map_ext. exact H. Qed.

Lemma vsum_map_scale {A} (c : Qc) (f : A -> Qc) (l : list A) :
  c * vsum (map f l) = vsum (map (fun x => c * f x) l).
Proof.
  induction l as [|x l IH]; simpl; [ring|]. rewrite <- IH. ring.
Qed.

Lemma vsum_map_plus {A} (f g : A -> Qc) (l : list A) :
  vsum (map (fun x => f x + g x) l) = vsum (map f l) + vsum (map g l).
Proof.
  induction l as [|x l IH]; simpl; [ring|]. rewrite IH. ring.
Qed.

Lemma vsum_map_zero {A} (l : list A) : vsum (map (fun _ => 0) l) = 0.
Proof. induction l as [|x l IH]; simpl; [reflexivity|]. rewrite IH. ring. Qed.

(** Two nested sums may be taken in either order. *)
Lemma vsum_exchange {A B} (f : A -> B -> Qc) (la : list A) (lb : list B) :
  vsum (map (fun x => vsum (map (fun y => f x y) lb)) la)
  = vsum (map (fun y => vsum (map (fun x => f x y) la)) lb).
Proof.
  induction la as [|x la IH]; simpl.
  - now rewrite vsum_map_zero.
  - rewrite IH. now rewrite <- vsum_map_plus.
Qed.

Lemma conv_mass_ext (mu nu : Qc -> Qc) (X : ndarray) (v : Qc) :
  (forall u, mu u = nu u) -> conv_mass mu X v = conv_mass nu X v.
Proof. intros H. unfold conv_mass. apply vsum_ext. intros r. now rewrite H. Qed.


Lemma Qceqb_shift (a v : Qc) : Qceqb a v = Qceqb (v - a) 0.
Proof.
  destruct (Qceqb a v) eqn:E; symmetry.
  - apply Qceqb_eq in E. subst a. apply Qceqb_eq. ring.
  - apply Qceqb_neq in E. apply Qceqb_neq. intros H. apply E.
    replace v with (v - a + a) by ring. rewrite H. ring.
Qed.

Lemma Qceqb_sum (a b v : Qc) : Qceqb (a + b) v = Qceqb a (v - b).
Proof.
  destruct (Qceqb a (v - b)) eqn:E.
  - apply Qceqb_eq in E. subst a. apply Qceqb_eq. ring.
  - apply Qceqb_neq in E. apply Qceqb_neq. intros H. apply E.
    rewrite <- H. ring.
Qed.

Lemma mass_vsum (X : ndarray) (u : Qc) :
  mass X u = vsum (map (fun r : Qc * Qc => if Qceqb r.1 u then r.2 else 0) X).
Proof.
  induction X as [|[a p] X IH]; simpl; [reflexivity|]. now rewrite IH.
Qed.

Lemma mass_perm (X Y : ndarray) (v : Qc) : X ≡ₚ Y -> mass X v = mass Y v.
Proof.
  intros HP. rewrite !mass_vsum. apply vsum_perm. now apply Permutation_map.
Qed.

(** The mass function of one distribution, as a sum of one variable. *)
Lemma mass_single (X : ndarray) (v : Qc) : mass X v = pmf_sum [X] v.
Proof.
  rewrite mass_vsum. simpl. unfold conv_mass. apply vsum_ext. intros [a p].
  simpl. rewrite (Qceqb_shift a v). destruct (Qceqb (v - a) 0); ring.
Qed.

Lemma mass_sum_conv (A B : ndarray) (v : Qc) :
  mass_sum A B v = conv_mass (mass A) B v.
Proof.
  unfold mass_sum, conv_mass. rewrite vsum_exchange.
  apply vsum_ext. intros [b q]. simpl.
  rewrite mass_vsum, vsum_map_scale. apply vsum_ext. intros [a p]. simpl.
  rewrite Qceqb_sum. destruct (Qceqb a (v - b)); ring.
Qed.

Lemma mass_fold_bivariate (zs : list ndarray) : forall A v,
  mass (fold_left bivariate zs A) v = pmf_sum (rev zs ++ [A]) v.
Proof.
  induction zs as [|z zs IH] using rev_ind; intros A v.
  - apply mass_single.
  - rewrite fold_left_app, rev_unit. cbn [fold_left app pmf_sum].
    rewrite bivariate_mass_sum, mass_sum_conv.
    apply conv_mass_ext. intros u. apply IH.
Qed.

(** X10. What the pairwise combiner computes: on every non-empty worklist
    [somaVADs_biv] returns a distribution that gives each value [v] the
    probability that the independent variables of the worklist add up to
    [v]. *)
Theorem pairwise_sum_distribution (h : gmap loc pylist) (l : loc) (xs : list ndarray) :
  h !! l = Some (VadList xs) ->
  xs <> [] ->
  exists Z h', somaVADs_biv l h = (Return Z, h') /\
               forall v, mass Z v = pmf_sum xs v.
Proof.
  intros Hl Hne. destruct (worklist_snoc xs Hne) as (ys & X1 & ->).
  eexists _, _. split; [exact (somaVADs_biv_fold _ _ _ _ Hl)|].
  intros v. rewrite (mass_perm _ _ v (sorted_rows_perm _)).
  rewrite mass_fold_bivariate. now rewrite rev_involutive.
Qed.

Lemma pairwise_sum_distribution_witness :
  let h : gmap loc pylist := {[ 1%positive := VadList [die; die; coin 1] ]} in
  exists Z h', somaVADs_biv 1%positive h = (Return Z, h') /\
               forall v, mass Z v = pmf_sum [die; die; coin 1] v.
Proof.
  intros h. apply (pairwise_sum_distribution h 1%positive [die; die; coin 1]).
  - reflexivity.
  - discriminate.
Defined.

(** ** The pairwise sum does not depend on the order of the worklist *)




Lemma Qclt_irrefl (x : Qc) : ~ x < x.
Proof. apply Qcle_not_lt, Qcle_refl. Qed.

(** Strictly increasing lists with the same elements are equal. *)
Lemma strictly_sorted_unique (l1 : list Qc) : forall l2,
  StronglySorted Qclt l1 -> StronglySorted Qclt l2 ->
  (forall x, x ∈ l1 <-> x ∈ l2) -> l1 = l2.
Proof.
  induction l1 as [|x l1 IH]; intros [|y l2] S1 S2 Hsame.
  - reflexivity.
  - exfalso. apply (elem_of_nil y), Hsame, list_elem_of_here.
  - exfalso. apply (elem_of_nil x), Hsame, list_elem_of_here.
  - apply StronglySorted_inv in S1 as [S1 F1].
    apply StronglySorted_inv in S2 as [S2 F2].
    rewrite Forall_forall in F1, F2.
    assert (Hxy : x = y).
    { pose proof (proj1 (Hsame x) (list_elem_of_here _ _)) as Hx.
      apply elem_of_cons in Hx as [Hx|Hx]; [assumption|].
      pose proof (proj2 (Hsame y) (list_elem_of_here _ _)) as Hy.
      apply elem_of_cons in Hy as [Hy|Hy]; [congruence|].
      exfalso. apply (Qclt_irrefl x).
      apply Qclt_trans with y; [now apply F1 | now apply F2]. }
    subst y. f_equal. apply IH; [assumption..|].
    intros z. split; intros Hz.
    + pose proof (proj1 (Hsame z) (list_elem_of_further _ _ _ Hz)) as Hz'.
      apply elem_of_cons in Hz' as [->|Hz']; [|assumption].
      exfalso. now apply (Qclt_irrefl x), F1.
    + pose proof (proj2 (Hsame z) (list_elem_of_further _ _ _ Hz)) as Hz'.
      apply elem_of_cons in Hz' as [->|Hz']; [|assumption].
      exfalso. now apply (Qclt_irrefl x), F2.
Qed.

(** Rows with distinct values are given by their values and their mass
    function. *)
Lemma rows_from_mass (Z : ndarray) :
  NoDup (col0 Z) -> Z = map (fun v => (v, mass Z v)) (col0 Z).
Proof.
  intros ND. unfold col0. rewrite map_map.
  rewrite <- (map_id Z) at 1. apply map_ext_Forall, Forall_forall.
  intros [v p] Hin. simpl. f_equal. symmetry.
  now apply mass_NoDup_row.
Qed.

Lemma strictly_sorted_NoDup (l : list Qc) : StronglySorted Qclt l -> NoDup l.
Proof.
  induction 1 as [|x l _ IH Hx]; constructor; [|assumption].
  intros Hin. rewrite Forall_forall in Hx.
  now apply (Qclt_irrefl x), Hx.
Qed.



(** Distributions in canonical form with the same values and the same
    mass function are equal. *)
Lemma canonical_unique (Z1 Z2 : ndarray) :
  StronglySorted Qclt (col0 Z1) -> StronglySorted Qclt (col0 Z2) ->
  (forall v, v ∈ col0 Z1 <-> v ∈ col0 Z2) ->
  (forall v, mass Z1 v = mass Z2 v) ->
  Z1 = Z2.
Proof.
  intros S1 S2 Hval Hmass.
  rewrite (rows_from_mass Z1), (rows_from_mass Z2)
    by now apply strictly_sorted_NoDup.
  rewrite (strictly_sorted_unique _ _ S1 S2 Hval).
  apply map_ext. intros v. now rewrite Hmass.
Qed.



(** ** Further edge cases *)

(** X12. On an empty collection of pairs the loop of [somaVADs_hib] does
    not run, and the reducer, handed the empty list [dif_VADs], raises
    [IndexError]; the caller's list is as before. *)
Theorem hybrid_empty_collection (h : gmap loc pylist) (l : loc) (delta : Qc) :
  h !! l = Some (PairList []) ->
  (somaVADs_hib l delta h).1 = Raise IndexError /\
  (somaVADs_hib l delta h).2 !! l = Some (PairList []).
Proof.
  intros Hl. split.
  - rewrite (somaVADs_hib_phases _ _ _ _ Hl). simpl.
    now rewrite (somaVADs_conv_nil _ _ _ (lookup_insert_eq _ _ _)).
  - rewrite somaVADs_hib_frame; [assumption | now rewrite Hl].
Qed.

Lemma hybrid_empty_collection_witness :
  let h : gmap loc pylist := {[ 1%positive := PairList [] ]} in
  (somaVADs_hib 1%positive (num 2) h).1 = Raise IndexError /\
  (somaVADs_hib 1%positive (num 2) h).2 !! 1%positive = Some (PairList []).
Proof.
  intros h. apply (hybrid_empty_collection h 1%positive (num 2)). reflexivity.
Defined.

(** X13. A single distribution whose values are already strictly
    increasing comes back from [somaVADs_biv] as it is. *)
Theorem pairwise_keeps_sorted (h : gmap loc pylist) (l : loc) (D : ndarray) :
  h !! l = Some (VadList [D]) ->
  StronglySorted Qclt (col0 D) ->
  somaVADs_biv l h = (Return D, h).
Proof.
  intros Hl HD. rewrite (somaVADs_biv_fold l [] D h Hl). simpl.
  rewrite insert_id by assumption. f_equal. f_equal.
  assert (P : col0 (take_rows D (argsort (col0 D))) ≡ₚ col0 D)
    by apply Permutation_map, sorted_rows_perm.
  apply canonical_unique.
  - apply sorted_NoDup_strict; [apply sorted_rows_sorted|].
    rewrite P. now apply strictly_sorted_NoDup.
  - assumption.
  - intros v. now rewrite P.
  - intros v. apply mass_perm, sorted_rows_perm.
Qed.

Lemma pairwise_keeps_sorted_witness :
  let h : gmap loc pylist := {[ 1%positive := VadList [coin 1] ]} in
  somaVADs_biv 1%positive h = (Return (coin 1), h).
Proof.
  intros h. apply (pairwise_keeps_sorted h 1%positive (coin 1)).
  - reflexivity.
  - repeat constructor.
Defined.

(** ** The two reducers on grids *)

Lemma num_succ (i : nat) : num (Z.of_nat (S i)) = num (Z.of_nat i) + 1.
Proof. now rewrite Nat2Z.inj_succ, <- Z.add_1_r, num_add, num_1. Qed.

Lemma grid_S (c d : Qc) (n : nat) : grid c d (S n) = c :: grid (c + d) d n.
Proof.
  unfold grid. cbn [seq map]. f_equal.
  - change (Z.of_nat 0) with 0%Z. rewrite num_0. ring.
  - rewrite <- seq_shift, map_map. apply map_ext. intros i.
    rewrite num_succ. ring.
Qed.

Lemma elem_of_grid (c d v : Qc) (n : nat) :
  v ∈ grid c d n <-> exists i, (i < n)%nat /\ v = c + num (Z.of_nat i) * d.
Proof.
  unfold grid. change (map ?f ?l) with (f <$> l). rewrite list_elem_of_fmap.
  split.
  - intros (i & -> & Hi). apply elem_of_seq in Hi. exists i. split; [lia | reflexivity].
  - intros (i & Hi & ->). exists i. split; [reflexivity|]. apply elem_of_seq. lia.
Qed.

Lemma grid_above (c d : Qc) (n : nat) :
  0 < d -> Forall (Qclt c) (grid (c + d) d n).
Proof.
  intros Hd. apply Forall_forall. intros v (i & _ & ->)%elem_of_grid.
  rewrite <- (Qcplus_0_r c) at 1. rewrite <- Qcplus_assoc.
  apply Qcplus_lt_mono_l.
  apply Qclt_le_trans with d; [assumption|].
  rewrite <- (Qcplus_0_r d) at 1. apply Qcplus_le_mono_l.
  apply Qcmult_nonneg_nonneg; [apply num_nonneg; lia | now apply Qclt_le_weak].
Qed.

Lemma grid_strictly_sorted (d : Qc) (n : nat) : forall c,
  0 < d -> StronglySorted Qclt (grid c d n).
Proof.
  induction n as [|n IH]; intros c Hd; [constructor|].
  rewrite grid_S. constructor; [now apply IH | now apply grid_above].
Qed.

(** The sums of a point of each of two grids are the points of the grid
    of the merge. *)
Lemma grid_sums (a b d v : Qc) (n m : nat) :
  v ∈ grid (a + b) d (S (n + m))
  <-> exists a' b', a' ∈ grid a d (S n) /\ b' ∈ grid b d (S m) /\ v = a' + b'.
Proof.
  split.
  - intros (i & Hi & ->)%elem_of_grid.
    exists (a + num (Z.of_nat (Nat.min i n)) * d),
           (b + num (Z.of_nat (i - Nat.min i n)) * d).
    split; [|split].
    + apply elem_of_grid. exists (Nat.min i n). split; [lia | reflexivity].
    + apply elem_of_grid. exists (i - Nat.min i n)%nat. split; [lia | reflexivity].
    + replace (Z.of_nat i)
        with (Z.of_nat (Nat.min i n) + Z.of_nat (i - Nat.min i n))%Z by lia.
      rewrite num_add. ring.
  - intros (a' & b' & (i & Hi & ->)%elem_of_grid & (j & Hj & ->)%elem_of_grid & ->).
    apply elem_of_grid. exists (i + j)%nat. split; [lia|].
    rewrite Nat2Z.inj_add, num_add. ring.
Qed.

Lemma zip_nil_r (G : list Qc) : zip G (@nil Qc) = [].
Proof. now destruct G. Qed.

Lemma mass_zip_vadd (G : list Qc) (v : Qc) : forall u w,
  (length u <= length G)%nat -> (length w <= length G)%nat ->
  mass (zip G (vadd u w)) v = mass (zip G u) v + mass (zip G w) v.
Proof.
  induction G as [|g G IH]; intros [|x u] [|y w] Hu Hw; simpl in *;
    try lia; try ring.
  rewrite IH by lia. destruct (Qceqb g v); ring.
Qed.

Lemma mass_zip_scale (p v : Qc) (G : list Qc) : forall P,
  mass (zip G (map (Qcmult p) P)) v = p * mass (zip G P) v.
Proof.
  induction G as [|g G IH]; intros [|q P]; simpl; try ring.
  rewrite IH. destruct (Qceqb g v); ring.
Qed.

(** The rows of a grid shifted by [a] weigh at [v] what the rows of the
    grid weigh at [v - a]. *)
Lemma mass_zip_grid_shift (a d v : Qc) (P : list Qc) : forall b n,
  (length P <= n)%nat ->
  mass (zip (grid (a + b) d n) P) v
  = mass (zip (grid b d (length P)) P) (v - a).
Proof.
  induction P as [|q P IH]; intros b n Hn.
  - now rewrite !zip_nil_r.
  - destruct n as [|n]; [simpl in Hn; lia|].
    cbn [length]. rewrite !grid_S. cbn [zip zip_with mass].
    replace (a + b + d) with (a + (b + d)) by ring.
    rewrite IH by (simpl in Hn; lia).
    replace (a + b) with (b + a) by ring. now rewrite Qceqb_sum.
Qed.

Lemma mass_sum_cons (a p : Qc) (X1 X2 : ndarray) (v : Qc) :
  mass_sum ((a, p) :: X1) X2 v = p * mass X2 (v - a) + mass_sum X1 X2 v.
Proof.
  unfold mass_sum. cbn [map vsum foldr fst snd]. f_equal.
  rewrite mass_vsum, vsum_map_scale. apply vsum_ext. intros [b q]. simpl.
  replace (a + b) with (b + a) by ring. rewrite Qceqb_sum.
  destruct (Qceqb b (v - a)); ring.
Qed.

(** The full convolution on the grid of the merge is the distribution of
    the sum of the two variables. *)
Lemma mass_convolve_grid (b d v : Qc) (P2 : list Qc) (P1 : list Qc) : forall a n,
  P2 <> [] ->
  (length P1 + length P2 <= S n)%nat ->
  mass (zip (grid (a + b) d n) (convolve_full P1 P2)) v
  = mass_sum (zip (grid a d (length P1)) P1)
             (zip (grid b d (length P2)) P2) v.
Proof.
  induction P1 as [|p P1 IH]; intros a n HP2 Hn.
  - cbn [convolve_full]. now rewrite zip_nil_r.
  - cbn [convolve_full length]. rewrite (grid_S a). cbn [zip_with].
    assert (Hpos : (1 <= length P2)%nat) by (destruct P2; [congruence | simpl; lia]).
    destruct n as [|n]; [simpl in Hn; lia|].
    rewrite mass_sum_cons, mass_zip_vadd.
    + rewrite mass_zip_scale, mass_zip_grid_shift by (simpl in Hn; lia).
      f_equal. rewrite grid_S. cbn [zip zip_with mass].
      replace (a + b + d) with (a + d + b) by ring.
      rewrite IH by (simpl in Hn; try assumption; lia).
      destruct (Qceqb (a + b) v); ring.
    + rewrite length_map, length_grid. simpl in Hn. lia.
    + cbn [length]. rewrite length_grid.
      destruct P1 as [|p' P1]; [simpl; lia|].
      rewrite length_convolve_full by (try discriminate; assumption).
      simpl in *. lia.
Qed.

Lemma rows_on_grid (X : ndarray) (a d : Qc) (n : nat) :
  col0 X = grid a d (S n) ->
  X = zip (grid a d (length (col1 X))) (col1 X).
Proof.
  intros H. rewrite (col1_nonempty _ _ _ _ H), <- H.
  symmetry. apply zip_fst_snd.
Qed.

Lemma grid_merge_same_distribution (d a b : Qc) (n m : nat) (Fc Fb X : ndarray) :
  col0 Fc = grid a d (S n) ->
  col0 X = grid b d (S m) ->
  same_distribution Fc Fb ->
  same_distribution
    (zip (grid (a + b) d (S (n + m))) (convolve_full (col1 Fc) (col1 X)))
    (bivariate Fb X).
Proof.
  intros HF HX [Hval Hmass].
  pose proof (col1_nonempty _ _ _ _ HF) as LF.
  pose proof (col1_nonempty _ _ _ _ HX) as LX.
  assert (NX : col1 X <> []) by now apply (nonempty_length _ m).
  assert (NF : col1 Fc <> []) by now apply (nonempty_length _ n).
  split; intros v.
  - change (zip ?s ?p) with (array_T s p). rewrite col0_array_T.
    + rewrite grid_sums, bivariate_values, <- HF, <- HX.
      split; intros (a' & b' & Ha & Hb & ->); exists a', b';
        (split; [now apply Hval | now split]).
    + rewrite length_grid, length_convolve_full by assumption. lia.
  - rewrite mass_convolve_grid by (try assumption; lia).
    rewrite <- (rows_on_grid _ _ _ _ HF), <- (rows_on_grid _ _ _ _ HX).
    rewrite bivariate_mass_sum, !mass_sum_conv.
    now apply conv_mass_ext.
Qed.

Lemma same_distribution_refl (X : ndarray) : same_distribution X X.
Proof. now split. Qed.

(** On unit grids the two reducers build the same distribution, merge
    after merge. *)
Lemma conv_fold_same_distribution (rest : list ndarray) : forall Fc Fb,
  on_grid 1 Fc -> same_distribution Fc Fb -> Forall (on_grid 1) rest ->
  exists Z, (conv_fold 1 Fc rest).1 = Return Z /\ on_grid 1 Z /\
            same_distribution Z (fold_left bivariate rest Fb).
Proof.
  induction rest as [|X rest IH]; intros Fc Fb HFc Hsame Hrest; simpl.
  - eauto.
  - apply Forall_cons in Hrest as [HX Hrest].
    destruct HFc as (a & n & HF). destruct HX as (b & m & HX).
    rewrite (conv_pair_grid 1 a b n m Fc X Qc_0_lt_1 HF HX).
    apply IH; [|now apply (grid_merge_same_distribution 1 a b n m)|assumption].
    exists (a + b), (n + m)%nat.
    change (zip ?s ?p) with (array_T s p). apply col0_array_T.
    rewrite length_grid, length_convolve_full.
    + rewrite (col1_nonempty _ _ _ _ HF), (col1_nonempty _ _ _ _ HX). lia.
    + eapply nonempty_length, col1_nonempty, HF.
    + eapply nonempty_length, col1_nonempty, HX.
Qed.

Lemma fold_left_bivariate_NoDup (rest : list ndarray) : forall A,
  NoDup (col0 A) -> NoDup (col0 (fold_left bivariate rest A)).
Proof.
  induction rest as [|X rest IH]; intros A ND; simpl; [assumption|].
  apply IH, bivariate_NoDup.
Qed.

Lemma on_grid_strictly_sorted (d : Qc) (X : ndarray) :
  0 < d -> on_grid d X -> StronglySorted Qclt (col0 X).
Proof. intros Hd (a & n & ->). now apply grid_strictly_sorted. Qed.

(** A distribution on a grid is the sorted form of every array with
    distinct values that describes the same distribution. *)
Lemma grid_is_sorted_form (d : Qc) (Z F : ndarray) :
  0 < d -> on_grid d Z -> same_distribution Z F -> NoDup (col0 F) ->
  Z = take_rows F (argsort (col0 F)).
Proof.
  intros Hd HZ [Hval Hmass] ND.
  assert (P : col0 (take_rows F (argsort (col0 F))) ≡ₚ col0 F)
    by apply Permutation_map, sorted_rows_perm.
  apply canonical_unique.
  - now apply (on_grid_strictly_sorted d).
  - apply sorted_NoDup_strict; [apply sorted_rows_sorted | now rewrite P].
  - intros v. now rewrite P.
  - intros v. rewrite Hmass. symmetry. apply mass_perm, sorted_rows_perm.
Qed.

(** X14. Where the grid reducer goes through, it agrees with the pairwise
    reducer: for a non-empty worklist of distributions on grids of step
    [delta > 0], with [delta = 1] or at most two distributions,
    [somaVADs_conv] called with [delta] and [somaVADs_biv] return the same
    distribution, row by row. *)
Theorem reducers_agree_on_grids
  (h1 h2 : gmap loc pylist) (l1 l2 : loc) (xs : list ndarray) (delta : Qc) :
  h1 !! l1 = Some (VadList xs) ->
  h2 !! l2 = Some (VadList xs) ->
  xs <> [] ->
  0 < delta ->
  Forall (on_grid delta) xs ->
  delta = 1 \/ (length xs <= 2)%nat ->
  exists Z, (somaVADs_biv l1 h1).1 = Return Z /\
            (somaVADs_conv l2 delta h2).1 = Return Z.
Proof.
  intros H1 H2 Hne Hdelta Hgrid Hcase.
  destruct (worklist_snoc xs Hne) as (ys & X1 & ->).
  apply Forall_app in Hgrid as [Hys HX1]. apply Forall_inv in HX1.
  rewrite (somaVADs_biv_fold _ _ _ _ H1), (somaVADs_conv_fold _ _ _ _ _ H2).
  cbn [fst].
  assert (ND1 : NoDup (col0 X1))
    by now apply strictly_sorted_NoDup, (on_grid_strictly_sorted delta).
  eexists. split; [reflexivity|].
  destruct Hcase as [-> | Hlen].
  - destruct (conv_fold_same_distribution (rev ys) X1 X1 HX1
                (same_distribution_refl X1)) as (Z & -> & HZ & Hsame);
      [now apply Forall_rev|].
    f_equal. apply (grid_is_sorted_form 1); try assumption.
    now apply fold_left_bivariate_NoDup.
  - rewrite length_app in Hlen. simpl in Hlen.
    destruct ys as [|X2 [|? ?]]; [| |simpl in Hlen; lia].
    + simpl. f_equal.
      apply (grid_is_sorted_form delta);
        [assumption | assumption | apply same_distribution_refl | assumption].
    + apply Forall_inv in Hys. cbn [rev app conv_fold fold_left].
      destruct HX1 as (a & n & HF). destruct Hys as (b & m & HX).
      rewrite (conv_pair_grid delta a b n m X1 X2 Hdelta HF HX).
      cbn [conv_fold fst]. f_equal.
      apply (grid_is_sorted_form delta); [assumption| | |apply bivariate_NoDup].
      * exists (a + b), (n + m)%nat.
        change (zip ?s ?p) with (array_T s p). apply col0_array_T.
        rewrite length_grid, length_convolve_full.
        -- rewrite (col1_nonempty _ _ _ _ HF), (col1_nonempty _ _ _ _ HX). lia.
        -- eapply nonempty_length, col1_nonempty, HF.
        -- eapply nonempty_length, col1_nonempty, HX.
      * apply (grid_merge_same_distribution delta a b n m); try assumption.
        apply same_distribution_refl.
Qed.

Lemma reducers_agree_on_grids_witness :
  let xs : list ndarray := [die; coin 1; die] in
  let h : gmap loc pylist := {[ 1%positive := VadList xs ]} in
  exists Z, (somaVADs_biv 1%positive h).1 = Return Z /\
            (somaVADs_conv 1%positive 1 h).1 = Return Z.
Proof.
  intros xs h.
  apply (reducers_agree_on_grids h h 1%positive 1%positive xs 1).
  - reflexivity.
  - reflexivity.
  - discriminate.
  - reflexivity.
  - assert (Hdie : on_grid 1 die) by (exists 1, 5%nat; same_numbers).
    assert (Hcoin : on_grid 1 (coin 1)) by (exists 0, 1%nat; same_numbers).
    repeat constructor; assumption.
  - now left.
Defined.
